(** * Hungarian loss: the matrix reduction steps of [hungarian_loss/steps.py]

    A shallow embedding of the reduction phase of the Hungarian method as the
    package implements it on TensorFlow tensors: [reduce_rows], [reduce_cols],
    [scratch_matrix], [is_optimal_assignment], [shift_zeros] and the loop
    [reduce_matrix].

    Conventions of the embedding.
    - A tensor of shape [(1, r, c)] is carried as the list of its [r] rows; the
      leading batch axis, which the source fixes to one, is dropped.  A row
      mask of shape [(n, 1)] is the list of [n] one-element rows, a column
      mask of shape [(1, n)] is the one-row list, a scalar is [[[x]]].
      The rows carry no width of their own, so the one tensor without rows
      is the tensor of shape [(1, 0, 0)]; statements about matrices with
      columns take at least one row.
    - Element-wise operations broadcast as TensorFlow does: an axis of size
      one is stretched.  On shapes TensorFlow rejects, and on operands of
      two different dtypes, which TensorFlow rejects as well, the operations
      of the embedding still return a value; no statement below relies on
      it, and the statements about float16 arithmetic take a float16 matrix.
    - The arithmetic of the element type is a parameter ([Scalar]), with
      three instances.  [half] is float16 itself: the finite values, counted
      in units of 2^-24, the two infinities and NaN, every operation rounded
      to the nearest value, ties to even, and overflowing to an infinity;
      the two zeros, which no operation of the module tells apart, are one
      value.  Every statement about how the steps behave on float16 numbers
      is made on this instance.  The instance on [Z] is exact arithmetic with
      the sentinel [tf.float16.max = 65504]: it is float16 as long as every
      value met is an integer that float16 holds and no result is rounded,
      which is the case in the scenarios computed on it; the other
      statements made on it are about the zeros of a matrix, its shape and
      its dtype, or about exact differences, before any rounding.  The
      instance on [xfloat] is exact arithmetic with the two infinities and
      NaN.
    - [tf.reduce_min] propagates NaN.  [tf.reduce_sum] adds from left to
      right; on the casts of masks it is only used for, any order gives the
      same sum as long as that sum is at most 2048.
    - [tf.while_loop] of [scratch_matrix] is unrolled up to the number of
      zero cells, which bounds its iterations; [tf.while_loop] of
      [reduce_matrix] takes fuel, and [None] means that the loop is still
      running when the fuel is spent. *)

From Stdlib Require Import ZArith List Bool Arith Lia.
Import ListNotations.

(** ** Element types *)

(** The arithmetic a tensor's elements support. *)
Class Scalar (V : Type) : Type := {
  of_Z : Z -> V;              (* a constant of the element type *)
  f_sub : V -> V -> V;        (* tf.subtract *)
  f_add : V -> V -> V;        (* tf.add *)
  f_mul : V -> V -> V;        (* tf.multiply *)
  f_min : V -> V -> V;        (* one step of tf.reduce_min *)
  f_eqb : V -> V -> bool;     (* tf.equal *)
  f_max : V;                  (* tf.float16.max *)
  f_top : V                   (* tf.reduce_min over an empty axis *)
}.

(** The largest finite float16. *)
Definition F16_MAX : Z := 65504.

(** Exact arithmetic on finite values.  There is no infinity among them:
    [f_top] is only reached by a reduction over an empty axis, and the
    sentinel stands for it. *)
#[export] Instance Z_scalar : Scalar Z := {
  of_Z := fun z => z;
  f_sub := Z.sub;
  f_add := Z.add;
  f_mul := Z.mul;
  f_min := Z.min;
  f_eqb := Z.eqb;
  f_max := F16_MAX;
  f_top := F16_MAX
}.

(** Finite values, the two infinities and NaN. *)
Inductive xfloat : Type :=
| Fin (z : Z)
| PInf
| NInf
| NaN.

Definition xf_neg (a : xfloat) : xfloat :=
  match a with
  | Fin z => Fin (- z)
  | PInf => NInf
  | NInf => PInf
  | NaN => NaN
  end.

Definition xf_add (a b : xfloat) : xfloat :=
  match a, b with
  | NaN, _ | _, NaN => NaN
  | Fin x, Fin y => Fin (x + y)
  | PInf, NInf | NInf, PInf => NaN
  | PInf, _ | _, PInf => PInf
  | NInf, _ | _, NInf => NInf
  end.

Definition xf_sub (a b : xfloat) : xfloat := xf_add a (xf_neg b).

Definition xf_mul (a b : xfloat) : xfloat :=
  match a, b with
  | NaN, _ | _, NaN => NaN
  | Fin x, Fin y => Fin (x * y)
  | Fin x, PInf | PInf, Fin x =>
      if (x =? 0)%Z then NaN else if (0 <? x)%Z then PInf else NInf
  | Fin x, NInf | NInf, Fin x =>
      if (x =? 0)%Z then NaN else if (0 <? x)%Z then NInf else PInf
  | PInf, PInf | NInf, NInf => PInf
  | PInf, NInf | NInf, PInf => NInf
  end.

Definition xf_min (a b : xfloat) : xfloat :=
  match a, b with
  | NaN, _ | _, NaN => NaN
  | NInf, _ | _, NInf => NInf
  | PInf, x | x, PInf => x
  | Fin x, Fin y => Fin (Z.min x y)
  end.

Definition xf_eqb (a b : xfloat) : bool :=
  match a, b with
  | Fin x, Fin y => (x =? y)%Z
  | PInf, PInf | NInf, NInf => true
  | _, _ => false
  end.

#[export] Instance xfloat_scalar : Scalar xfloat := {
  of_Z := Fin;
  f_sub := xf_sub;
  f_add := xf_add;
  f_mul := xf_mul;
  f_min := xf_min;
  f_eqb := xf_eqb;
  f_max := Fin F16_MAX;
  f_top := PInf
}.

(** ** float16 *)

(** A float16 value: a finite value [k] * 2^-24 (2^-24 is the least positive
    float16, so every finite float16 is such a multiple), an infinity or
    NaN. *)
Inductive half : Type :=
| HFin (k : Z)
| HPInf
| HNInf
| HNaN.

(** One, in units of 2^-24. *)
Definition HALF_ONE : Z := 2 ^ 24.

(** [tf.float16.max], in units of 2^-24. *)
Definition HALF_MAX : Z := F16_MAX * 2 ^ 24.

(** The quotient [a / d] rounded to the nearest integer, ties to even. *)
Definition round_nearest_even (a d : Z) : Z :=
  let q := (a / d)%Z in
  let r := (a mod d)%Z in
  if (2 * r <? d)%Z then q
  else if (d <? 2 * r)%Z then (q + 1)%Z
  else if Z.even q then q else (q + 1)%Z.

(** The spacing of float16 around the magnitude [a] * 2^-48 is 2^s units:
    eleven significant bits, and never finer than one unit. *)
Definition half_exponent (a : Z) : Z := Z.max 0 (Z.log2 a - 34).

(** The float16 nearest to the real number [w] * 2^-48: the significand is
    rounded to eleven bits, ties to even; beyond [tf.float16.max] the result
    is an infinity. *)
Definition round16 (w : Z) : half :=
  let a := Z.abs w in
  let s := half_exponent a in
  let k := (round_nearest_even a (2 ^ (24 + s)) * 2 ^ s)%Z in
  if (HALF_MAX <? k)%Z then (if (0 <? w)%Z then HPInf else HNInf)
  else HFin (Z.sgn w * k).

Definition half_neg (x : half) : half :=
  match x with
  | HFin k => HFin (- k)
  | HPInf => HNInf
  | HNInf => HPInf
  | HNaN => HNaN
  end.

Definition half_add (x y : half) : half :=
  match x, y with
  | HNaN, _ | _, HNaN => HNaN
  | HFin a, HFin b => round16 ((a + b) * 2 ^ 24)
  | HPInf, HNInf | HNInf, HPInf => HNaN
  | HPInf, _ | _, HPInf => HPInf
  | HNInf, _ | _, HNInf => HNInf
  end.

Definition half_sub (x y : half) : half := half_add x (half_neg y).

Definition half_mul (x y : half) : half :=
  match x, y with
  | HNaN, _ | _, HNaN => HNaN
  | HFin a, HFin b => round16 (a * b)
  | HFin a, HPInf | HPInf, HFin a =>
      if (a =? 0)%Z then HNaN else if (0 <? a)%Z then HPInf else HNInf
  | HFin a, HNInf | HNInf, HFin a =>
      if (a =? 0)%Z then HNaN else if (0 <? a)%Z then HNInf else HPInf
  | HPInf, HPInf | HNInf, HNInf => HPInf
  | HPInf, HNInf | HNInf, HPInf => HNInf
  end.

Definition half_min (x y : half) : half :=
  match x, y with
  | HNaN, _ | _, HNaN => HNaN
  | HNInf, _ | _, HNInf => HNInf
  | HPInf, z | z, HPInf => z
  | HFin a, HFin b => HFin (Z.min a b)
  end.

Definition half_eqb (x y : half) : bool :=
  match x, y with
  | HFin a, HFin b => (a =? b)%Z
  | HPInf, HPInf | HNInf, HNInf => true
  | _, _ => false
  end.

#[export] Instance half_scalar : Scalar half := {
  of_Z := fun z => round16 (z * 2 ^ 48);
  f_sub := half_sub;
  f_add := half_add;
  f_mul := half_mul;
  f_min := half_min;
  f_eqb := half_eqb;
  f_max := HFin HALF_MAX;
  f_top := HPInf
}.

(** ** Tensors *)

Inductive DType : Type := Float16 | Float32 | Float64 | Int32 | Int64.

(** A numeric tensor: its dtype tag and its rows. *)
Record Tensor (V : Type) : Type := mkTensor {
  dtype : DType;
  values : list (list V)
}.

Arguments mkTensor {V} _ _.
Arguments dtype {V} _.
Arguments values {V} _.

(** A boolean tensor of rank two. *)
Definition BoolTensor : Type := list (list bool).

(** What an operation that may fail an [assert] gives back. *)
Inductive result (A : Type) : Type :=
| Ok (a : A)
| AssertionError.

Arguments Ok {A} _.
Arguments AssertionError {A}.

(** ** Shapes, cells and broadcasting *)

Definition tabulate {A : Type} (n : nat) (f : nat -> A) : list A :=
  map f (seq 0 n).

Definition ncols {A : Type} (m : list (list A)) : nat :=
  match m with
  | [] => 0
  | r :: _ => length r
  end.

Definition cell {A : Type} (d : A) (m : list (list A)) (i j : nat) : A :=
  nth j (nth i m []) d.

Definition column {A : Type} (d : A) (j : nat) (m : list (list A)) : list A :=
  map (fun r => nth j r d) m.

(** The index read on an axis of the given size: an axis of size one is
    stretched. *)
Definition bidx (size i : nat) : nat := if size =? 1 then 0 else i.

(** The size of a broadcast axis. *)
Definition bdim (x y : nat) : nat := if x =? 1 then y else x.

Definition bcell {A : Type} (d : A) (m : list (list A)) (i j : nat) : A :=
  cell d m (bidx (length m) i) (bidx (ncols m) j).

Definition broadcast2 {A B C : Type} (dA : A) (dB : B) (f : A -> B -> C)
  (a : list (list A)) (b : list (list B)) : list (list C) :=
  tabulate (bdim (length a) (length b)) (fun i =>
    tabulate (bdim (ncols a) (ncols b)) (fun j =>
      f (bcell dA a i j) (bcell dB b i j))).

(** ** Boolean tensor operations *)

Definition tf_logical_and (a b : BoolTensor) : BoolTensor :=
  broadcast2 false false andb a b.

Definition tf_logical_or (a b : BoolTensor) : BoolTensor :=
  broadcast2 false false orb a b.

Definition tf_logical_not (a : BoolTensor) : BoolTensor :=
  map (map negb) a.

Definition tf_reduce_any (a : BoolTensor) : bool :=
  existsb (existsb (fun b => b)) a.

(** [tf.zeros((r, c), tf.bool)] *)
Definition tf_zeros_bool (r c : nat) : BoolTensor :=
  repeat (repeat false c) r.

Fixpoint count_true (l : list bool) : nat :=
  match l with
  | [] => 0
  | b :: l' => (if b then 1 else 0) + count_true l'
  end.

(** [tf.reduce_max] of a list of counts. *)
Definition reduce_max (l : list nat) : nat := fold_right Nat.max 0 l.

(** The first position holding the largest count. *)
Fixpoint argmax (l : list nat) : nat :=
  match l with
  | [] => 0
  | x :: l' => if reduce_max l' <=? x then 0 else S (argmax l')
  end.

(** Modelled from the spec: [count_zeros_in_rows] of the absent
    [hungarian_loss/ops.py]: for each row, the number of cells of the
    zero-presence matrix that are set. *)
Definition count_zeros_in_rows (zeros_mask : BoolTensor) : list nat :=
  map count_true zeros_mask.

(** Modelled from the spec: [count_zeros_in_cols] of the absent
    [hungarian_loss/ops.py]: the same count for each column. *)
Definition count_zeros_in_cols (zeros_mask : BoolTensor) : list nat :=
  tabulate (ncols zeros_mask) (fun j => count_true (column false j zeros_mask)).

(** Modelled from the spec: [get_row_mask_with_max_zeros] of the absent
    [hungarian_loss/ops.py]: a mask of shape [(n, 1)] set on one row holding
    the largest number of residual zeros, selected by an argmax (the first
    such row). *)
Definition get_row_mask_with_max_zeros (zeros_mask : BoolTensor) : BoolTensor :=
  let k := argmax (count_zeros_in_rows zeros_mask) in
  tabulate (length zeros_mask) (fun i => [i =? k]).

(** Modelled from the spec: [get_col_mask_with_max_zeros] of the absent
    [hungarian_loss/ops.py]: the mask of shape [(1, n)] of one column holding
    the largest number of residual zeros (the first such column). *)
Definition get_col_mask_with_max_zeros (zeros_mask : BoolTensor) : BoolTensor :=
  let k := argmax (count_zeros_in_cols zeros_mask) in
  [tabulate (ncols zeros_mask) (fun j => j =? k)].

(** Modelled from the spec: [expand_item_mask] of the absent
    [hungarian_loss/ops.py]: a row mask [(n, 1)] or a column mask [(1, n)]
    broadcast to the [n] by [n] mask of every cell on a selected line. *)
Definition expand_item_mask (item_mask : BoolTensor) : BoolTensor :=
  let n := bdim (length item_mask) (ncols item_mask) in
  tabulate n (fun i => tabulate n (fun j => bcell false item_mask i j)).

(** A loop unrolled at most [n] times. *)
Fixpoint loop_upto {S : Type} (n : nat) (cond : S -> bool) (body : S -> S)
  (s : S) : S :=
  match n with
  | O => s
  | Datatypes.S k => if cond s then loop_upto k cond body (body s) else s
  end.

Definition count_cells (zeros_mask : BoolTensor) : nat :=
  list_sum (map count_true zeros_mask).

(** ** Numeric tensor operations and the steps of [steps.py] *)

Section Steps.

Context {V : Type} {SV : Scalar V}.

(** Modelled from the spec: the constant [ZERO] of the absent
    [hungarian_loss/__init__.py], the zero the matrix is compared with. *)
Definition ZERO : V := of_Z 0.

(** Modelled from the spec: the constant [ONE] of the absent
    [hungarian_loss/__init__.py], the unit the outline mask is subtracted from. *)
Definition ONE : V := of_Z 1.

(** A scalar operand of an element-wise operation. *)
Definition scalar (x : V) : Tensor V := mkTensor Float16 [[x]].

(** [tf.cast(t, dtype)] of a numeric tensor. *)
Definition tf_cast (d : DType) (t : Tensor V) : Tensor V :=
  mkTensor d (values t).

(** [tf.cast(mask, tf.float16)] of a boolean tensor. *)
Definition tf_cast_bool (mask : BoolTensor) : Tensor V :=
  mkTensor Float16 (map (map (fun b : bool => if b then ONE else ZERO)) mask).

Definition tf_subtract (a b : Tensor V) : Tensor V :=
  mkTensor (dtype a) (broadcast2 ZERO ZERO f_sub (values a) (values b)).

Definition tf_add (a b : Tensor V) : Tensor V :=
  mkTensor (dtype a) (broadcast2 ZERO ZERO f_add (values a) (values b)).

Definition tf_multiply (a b : Tensor V) : Tensor V :=
  mkTensor (dtype a) (broadcast2 ZERO ZERO f_mul (values a) (values b)).

Definition reduce_min_list (l : list V) : V :=
  match l with
  | [] => f_top
  | x :: l' => fold_left f_min l' x
  end.

(** [tf.reduce_min(t, axis=2)]: the minimum of each row, shape [(1, r)]. *)
Definition tf_reduce_min_axis2 (t : Tensor V) : Tensor V :=
  mkTensor (dtype t) [map reduce_min_list (values t)].

(** [tf.reduce_min(t, axis=1)]: the minimum of each column, shape [(1, c)]. *)
Definition tf_reduce_min_axis1 (t : Tensor V) : Tensor V :=
  mkTensor (dtype t)
    [tabulate (ncols (values t)) (fun j => reduce_min_list (column ZERO j (values t)))].

(** [tf.reduce_min(t)]: the minimum of all elements, a scalar. *)
Definition tf_reduce_min (t : Tensor V) : Tensor V :=
  mkTensor (dtype t) [[reduce_min_list (concat (values t))]].

(** [tf.reduce_sum(t)]: the sum of all elements. *)
Definition tf_reduce_sum (t : Tensor V) : V :=
  fold_left f_add (concat (values t)) ZERO.

(** [tf.reshape(t, (-1, 1))] *)
Definition tf_reshape_col (t : Tensor V) : Tensor V :=
  mkTensor (dtype t) (map (fun x => [x]) (concat (values t))).

(** [tf.math.equal(t, c)] *)
Definition tf_equal (t : Tensor V) (c : V) : BoolTensor :=
  map (map (fun x => f_eqb x c)) (values t).

Definition reduce_rows (matrix : Tensor V) : Tensor V :=
  tf_cast Float16
    (tf_subtract matrix (tf_reshape_col (tf_reduce_min_axis2 matrix))).

Definition reduce_cols (matrix : Tensor V) : Tensor V :=
  tf_cast Float16 (tf_subtract matrix (tf_reduce_min_axis1 matrix)).

(** The loop variables of [scratch_matrix]: the residual zeros and the two
    masks. *)
Definition scratch_state : Type := (BoolTensor * BoolTensor * BoolTensor)%type.

Definition scratch_row (s : scratch_state) : scratch_state :=
  let '(zeros_mask, scratched_rows_mask, scratched_cols_mask) := s in
  let scratched_row_mask := get_row_mask_with_max_zeros zeros_mask in
  let new_scratched_rows_mask :=
    tf_logical_or scratched_rows_mask scratched_row_mask in
  let new_zeros_mask :=
    tf_logical_and zeros_mask
      (tf_logical_not (expand_item_mask scratched_row_mask)) in
  (new_zeros_mask, new_scratched_rows_mask, scratched_cols_mask).

Definition scratch_col (s : scratch_state) : scratch_state :=
  let '(zeros_mask, scratched_rows_mask, scratched_cols_mask) := s in
  let scratched_col_mask := get_col_mask_with_max_zeros zeros_mask in
  let new_scratched_cols_mask :=
    tf_logical_or scratched_cols_mask scratched_col_mask in
  let new_zeros_mask :=
    tf_logical_and zeros_mask
      (tf_logical_not (expand_item_mask scratched_col_mask)) in
  (new_zeros_mask, scratched_rows_mask, new_scratched_cols_mask).

Definition scratch_body (s : scratch_state) : scratch_state :=
  let '(zeros_mask, _, _) := s in
  if reduce_max (count_zeros_in_cols zeros_mask)
       <? reduce_max (count_zeros_in_rows zeros_mask)
  then scratch_row s
  else scratch_col s.

Definition scratch_condition (s : scratch_state) : bool :=
  let '(zeros_mask, _, _) := s in tf_reduce_any zeros_mask.

Definition scratch_init (matrix : Tensor V) : scratch_state :=
  let num_of_rows := length (values matrix) in
  let num_of_cols := ncols (values matrix) in
  (tf_equal matrix ZERO,
   tf_zeros_bool num_of_rows 1,
   tf_zeros_bool 1 num_of_cols).

(** The state [tf.while_loop] of [scratch_matrix] ends in. *)
Definition scratch_final (matrix : Tensor V) : scratch_state :=
  loop_upto (count_cells (tf_equal matrix ZERO))
    scratch_condition scratch_body (scratch_init matrix).

Definition scratch_matrix (matrix : Tensor V) : BoolTensor * BoolTensor :=
  let '(_, scratched_rows_mask, scratched_cols_mask) := scratch_final matrix in
  (scratched_rows_mask, scratched_cols_mask).

Definition is_optimal_assignment
  (scratched_rows_mask scratched_cols_mask : BoolTensor) : result bool :=
  if length scratched_rows_mask =? ncols scratched_cols_mask then
    let n := length scratched_rows_mask in
    let number_of_lines_covering_zeros :=
      f_add (tf_reduce_sum (tf_cast_bool scratched_rows_mask))
            (tf_reduce_sum (tf_cast_bool scratched_cols_mask)) in
    Ok (f_eqb (of_Z (Z.of_nat n)) number_of_lines_covering_zeros)
  else AssertionError.

Definition shift_zeros (matrix : Tensor V)
  (scratched_rows_mask scratched_cols_mask : BoolTensor)
  : Tensor V * BoolTensor * BoolTensor :=
  let cross_mask :=
    tf_cast_bool (tf_logical_and scratched_rows_mask scratched_cols_mask) in
  let inline_mask :=
    tf_cast_bool
      (tf_logical_or
         (tf_logical_and scratched_rows_mask
            (tf_logical_not scratched_cols_mask))
         (tf_logical_and (tf_logical_not scratched_rows_mask)
            scratched_cols_mask)) in
  let outline_mask :=
    tf_cast_bool
      (tf_logical_not
         (tf_logical_or scratched_rows_mask scratched_cols_mask)) in
  let outline_min_value :=
    tf_reduce_min
      (tf_add
         (tf_multiply (tf_subtract (scalar ONE) outline_mask) (scalar f_max))
         (tf_multiply matrix outline_mask)) in
  let cross_matrix :=
    tf_add (tf_multiply matrix cross_mask)
           (tf_multiply outline_min_value cross_mask) in
  let inline_matrix := tf_multiply matrix inline_mask in
  let outline_matrix :=
    tf_subtract (tf_multiply matrix outline_mask)
                (tf_multiply outline_min_value outline_mask) in
  (tf_add cross_matrix (tf_add inline_matrix outline_matrix),
   scratched_rows_mask,
   scratched_cols_mask).

(** The loop variables of [reduce_matrix]. *)
Definition reduce_state : Type := (Tensor V * BoolTensor * BoolTensor)%type.

Definition reduce_body (s : reduce_state) : result reduce_state :=
  let '(matrix, _, _) := s in
  let new_matrix := reduce_rows matrix in
  let new_matrix := reduce_cols new_matrix in
  let '(scratched_rows_mask, scratched_cols_mask) := scratch_matrix new_matrix in
  match is_optimal_assignment scratched_rows_mask scratched_cols_mask with
  | AssertionError => AssertionError
  | Ok true => Ok (new_matrix, scratched_rows_mask, scratched_cols_mask)
  | Ok false => Ok (shift_zeros new_matrix scratched_rows_mask scratched_cols_mask)
  end.

Definition reduce_condition (s : reduce_state) : result bool :=
  let '(_, scratched_rows_mask, scratched_cols_mask) := s in
  match is_optimal_assignment scratched_rows_mask scratched_cols_mask with
  | AssertionError => AssertionError
  | Ok b => Ok (negb b)
  end.

(** [tf.while_loop(condition, body, s)] with fuel: the condition is tested
    first; [None] when the fuel is spent and the condition still holds. *)
Fixpoint reduce_loop (fuel : nat) (s : reduce_state)
  : option (result reduce_state) :=
  match reduce_condition s with
  | AssertionError => Some AssertionError
  | Ok false => Some (Ok s)
  | Ok true =>
      match fuel with
      | O => None
      | S fuel' =>
          match reduce_body s with
          | AssertionError => Some AssertionError
          | Ok s' => reduce_loop fuel' s'
          end
      end
  end.

Definition reduce_init (matrix : Tensor V) : reduce_state :=
  let num_of_rows := length (values matrix) in
  let num_of_cols := ncols (values matrix) in
  (matrix, tf_zeros_bool num_of_rows 1, tf_zeros_bool 1 num_of_cols).

Definition reduce_matrix (fuel : nat) (matrix : Tensor V)
  : option (result (Tensor V)) :=
  match reduce_loop fuel (reduce_init matrix) with
  | None => None
  | Some AssertionError => Some AssertionError
  | Some (Ok (reduced_matrix, _, _)) => Some (Ok reduced_matrix)
  end.

End Steps.


(** ** Statements: shapes, marks and cells *)

(** A float16 tensor of exact finite values. *)
Definition f16 (m : list (list Z)) : Tensor Z := mkTensor Float16 m.

(** The float16 tensor of a matrix of integers. *)
Definition t16 (m : list (list Z)) : Tensor half :=
  mkTensor Float16 (map (map (of_Z (V := half))) m).

(** [shape m r c]: [m] has [r] rows of [c] cells. *)
Definition shape {A : Type} (m : list (list A)) (r c : nat) : Prop :=
  length m = r /\ Forall (fun row => length row = c) m.

Definition square {A : Type} (m : list (list A)) (n : nat) : Prop :=
  shape m n n.

(** The matrix of [r] rows and [c] columns whose cell [(i, j)] is [g i j]. *)
Definition mk {A : Type} (r c : nat) (g : nat -> nat -> A) : list (list A) :=
  tabulate r (fun i => tabulate c (fun j => g i j)).

(** Two axis sizes TensorFlow broadcasts together. *)
Definition bcompat (x y : nat) : Prop := x = y \/ x = 1 \/ y = 1.

(** Row [i] is marked in a row mask of shape [(n, 1)]. *)
Definition row_marked (rows_mask : BoolTensor) (i : nat) : bool :=
  cell false rows_mask i 0.

(** Column [j] is marked in a column mask of shape [(1, n)]. *)
Definition col_marked (cols_mask : BoolTensor) (j : nat) : bool :=
  cell false cols_mask 0 j.

(** The number of marked lines of a mask. *)
Definition count_marked (mask : BoolTensor) : nat :=
  count_true (concat mask).

(** The three classes of cells [shift_zeros] distinguishes. *)
Definition outline (rows_mask cols_mask : BoolTensor) (i j : nat) : bool :=
  negb (row_marked rows_mask i) && negb (col_marked cols_mask j).

Definition cross (rows_mask cols_mask : BoolTensor) (i j : nat) : bool :=
  row_marked rows_mask i && col_marked cols_mask j.

Definition inline (rows_mask cols_mask : BoolTensor) (i j : nat) : bool :=
  xorb (row_marked rows_mask i) (col_marked cols_mask j).

(** The least element of a list of integers. *)
Fixpoint Zminimum (l : list Z) : Z :=
  match l with
  | [] => 0%Z
  | [x] => x
  | x :: l' => Z.min x (Zminimum l')
  end.

(** Cell [(i, j)] of the row-reduced table [g] with [c] columns. *)
Definition row_reduced_cell (c : nat) (g : nat -> nat -> Z) (i j : nat) : Z :=
  (g i j - Zminimum (tabulate c (g i)))%Z.

(** Cell [(i, j)] of the table [g] of [r] rows after column reduction. *)
Definition col_reduced_cell (r : nat) (g : nat -> nat -> Z) (i j : nat) : Z :=
  (g i j - Zminimum (tabulate r (fun i' => g i' j)))%Z.

(** Cell [(i, j)] after both reductions. *)
Definition reduced_cell (r c : nat) (g : nat -> nat -> Z) (i j : nat) : Z :=
  col_reduced_cell r (row_reduced_cell c g) i j.

(** The invariant of the loop of [scratch_matrix] on an [n] by [n] matrix
    whose zeros are [z0]: the state is well shaped, and every zero is still
    residual or lies on a marked line. *)
Definition scratch_inv (n : nat) (z0 : nat -> nat -> bool) (s : scratch_state)
  : Prop :=
  exists zf rf cf,
    s = (mk n n zf, mk n 1 (fun i _ => rf i), mk 1 n (fun _ j => cf j))
    /\ forall i j, i < n -> j < n -> z0 i j = true ->
                   zf i j = true \/ rf i = true \/ cf j = true.

(** The number of residual zeros of a state. *)
Definition scratch_measure (s : scratch_state) : nat :=
  let '(zeros_mask, _, _) := s in count_cells zeros_mask.

(** The cells [shift_zeros] computes on an [n] by [n] table [g] under the
    masks whose cells are [rf] and [cf]. *)
Section ShiftCells.

Context {V : Type} {SV : Scalar V}.

(** The cast of a boolean. *)
Definition b2v (b : bool) : V := if b then ONE else ZERO.

(** The operand of [tf.reduce_min]: the sentinel off the outline, the value
    on it. *)
Definition outline_weight (g : nat -> nat -> V) (rf cf : nat -> nat -> bool)
  (i j : nat) : V :=
  f_add (f_mul (f_sub ONE (b2v (negb (rf i 0 || cf 0 j)))) f_max)
        (f_mul (g i j) (b2v (negb (rf i 0 || cf 0 j)))).

(** [outline_min_value] *)
Definition shift_delta (n : nat) (g : nat -> nat -> V)
  (rf cf : nat -> nat -> bool) : V :=
  reduce_min_list (concat (mk n n (outline_weight g rf cf))).

(** The sum of [cross_matrix], [inline_matrix] and [outline_matrix]. *)
Definition shifted_cell (n : nat) (g : nat -> nat -> V)
  (rf cf : nat -> nat -> bool) (i j : nat) : V :=
  let delta := shift_delta n g rf cf in
  f_add
    (f_add (f_mul (g i j) (b2v (rf i 0 && cf 0 j)))
           (f_mul delta (b2v (rf i 0 && cf 0 j))))
    (f_add
       (f_mul (g i j)
          (b2v (rf i 0 && negb (cf 0 j) || negb (rf i 0) && cf 0 j)))
       (f_sub (f_mul (g i j) (b2v (negb (rf i 0 || cf 0 j))))
              (f_mul delta (b2v (negb (rf i 0 || cf 0 j)))))).

End ShiftCells.

(** The invariant of the loop of [reduce_matrix] on an [n] by [n] input:
    the matrix is square, and when the masks pass the optimality test the
    matrix is a reduced one and the masks are its cover. *)
Definition reduce_inv {V : Type} {SV : Scalar V} (n : nat)
  (s : reduce_state (V := V)) : Prop :=
  let '(m, rows_mask, cols_mask) := s in
  square (values m) n
  /\ (is_optimal_assignment (V := V) rows_mask cols_mask = Ok true ->
      exists m0, square (values m0) n
                 /\ m = reduce_cols (reduce_rows m0)
                 /\ scratch_matrix m = (rows_mask, cols_mask)).

(** A second invariant of the loop of [scratch_matrix]: the residual zeros
    are zeros of the matrix, every marked line holds a zero of the matrix,
    and the marked lines and the residual zeros together are no more than
    the zeros of the matrix. *)
Definition scratch_marks_inv (n : nat) (z0 : nat -> nat -> bool)
  (s : scratch_state) : Prop :=
  exists zf rf cf,
    s = (mk n n zf, mk n 1 (fun i _ => rf i), mk 1 n (fun _ j => cf j))
    /\ (forall i j, i < n -> j < n -> zf i j = true -> z0 i j = true)
    /\ (forall i, i < n -> rf i = true -> exists j, j < n /\ z0 i j = true)
    /\ (forall j, j < n -> cf j = true -> exists i, i < n /\ z0 i j = true)
    /\ count_true (tabulate n rf) + count_true (tabulate n cf)
       + count_cells (mk n n zf) <= count_cells (mk n n z0).

(** ** Statements about float16 values, and the reducer as the
       specification words it *)

Definition is_finite (x : half) : bool :=
  match x with HFin _ => true | _ => false end.

(** The finite value in units of 2^-24. *)
Definition half_value (x : half) : Z :=
  match x with HFin k => k | _ => 0%Z end.

(** A value float16 holds: one that rounding leaves as it is. *)
Definition is_float16 (x : half) : Prop :=
  match x with
  | HFin k => round16 (k * 2 ^ 24) = HFin k
  | _ => True
  end.

(** Not below zero: a finite value that is not negative, or +inf. *)
Definition half_nonneg (x : half) : Prop :=
  match x with
  | HFin k => (0 <= k)%Z
  | HPInf => True
  | _ => False
  end.

(** [x] is the minimum of [x] and [y]. *)
Definition min_le (x y : half) : Prop := half_min x y = x.

(** The magnitudes float16 holds have at most eleven significant bits. *)
Definition representable (k : Z) : Prop :=
  exists m s, (0 <= s /\ 0 <= m <= 2 ^ 11 /\ k = m * 2 ^ s)%Z.

(** The least element of a list of float16 values. *)
Fixpoint least (l : list half) : half :=
  match l with
  | [] => HPInf
  | [x] => x
  | x :: l' => half_min x (least l')
  end.

(** The reducer as the specification words it, in float16 arithmetic: every
    entry loses the minimum of its row, ... *)
Definition subtract_row_minima (m : list (list half)) : list (list half) :=
  map (fun r => map (fun x => half_sub x (least r)) r) m.

(** ... then every entry loses the minimum of its column. *)
Definition subtract_col_minima (m : list (list half)) : list (list half) :=
  map (fun r =>
         map (fun jx => half_sub (snd jx) (least (column (HFin 0) (fst jx) m)))
             (combine (seq 0 (length r)) r))
      m.

Definition spec_reduce (m : list (list half)) : list (list half) :=
  subtract_col_minima (subtract_row_minima m).

(** Cell [(i, j)] of the float16 table [g] with [c] columns after row
    reduction. *)
Definition half_row_reduced (c : nat) (g : nat -> nat -> half) (i j : nat)
  : half :=
  half_sub (g i j) (reduce_min_list (tabulate c (g i))).

(** Cell [(i, j)] of the float16 table [g] of [r] rows after column
    reduction. *)
Definition half_col_reduced (r : nat) (g : nat -> nat -> half) (i j : nat)
  : half :=
  half_sub (g i j) (reduce_min_list (tabulate r (fun i' => g i' j))).

(** A reduced table: float16 values, none below zero, a zero on every row
    and on every column. *)
Definition reduced_table (r c : nat) (g : nat -> nat -> half) : Prop :=
  (forall i j, i < r -> j < c -> half_nonneg (g i j) /\ is_float16 (g i j))
  /\ (forall i, i < r -> exists j, j < c /\ g i j = HFin 0)
  /\ (forall j, j < c -> exists i, i < r /\ g i j = HFin 0).

(** The scenario of the specification and of the docstrings. *)
Definition sample : list (list Z) :=
  [[30; 25; 10]; [15; 10; 20]; [25; 20; 15]]%Z.

(** A reduced matrix whose zeros the greedy cover needs five lines for. *)
Definition stuck : list (list Z) :=
  [[0; 0; 1; 1]; [0; 1; 0; 1]; [0; 0; 0; 0]; [1; 1; 1; 0]]%Z.

(** A matrix of finite float16 values whose row reduction overflows: every
    row holds [tf.float16.max] in column 0 and its opposite in another
    column. *)
Definition overflowing : list (list Z) :=
  [[65504; -65504; -65504; -65504]; [65504; -65504; 0; 0];
   [65504; 0; -65504; 0]; [65504; 0; 0; -65504]]%Z.

(** ** Lists, shapes and broadcasting *)

Lemma length_tabulate {A : Type} (n : nat) (f : nat -> A) :
  length (tabulate n f) = n.
Proof. unfold tabulate. now rewrite length_map, length_seq. Qed.

Lemma nth_tabulate {A : Type} (n : nat) (f : nat -> A) (i : nat) (d : A) :
  i < n -> nth i (tabulate n f) d = f i.
Proof.
  intros Hi. unfold tabulate.
  rewrite (nth_indep _ d (f 0)) by now rewrite length_map, length_seq.
  rewrite (map_nth f (seq 0 n) 0 i), seq_nth; auto.
Qed.

Lemma tabulate_ext {A : Type} (n : nat) (f g : nat -> A) :
  (forall i, i < n -> f i = g i) -> tabulate n f = tabulate n g.
Proof.
  intros E. unfold tabulate. apply map_ext_in.
  intros i Hi. apply in_seq in Hi. apply E. lia.
Qed.

Lemma map_tabulate {A B : Type} (h : A -> B) (n : nat) (f : nat -> A) :
  map h (tabulate n f) = tabulate n (fun i => h (f i)).
Proof. unfold tabulate. now rewrite map_map. Qed.

Lemma tabulate_nth {A : Type} (l : list A) (d : A) :
  l = tabulate (length l) (fun i => nth i l d).
Proof.
  apply (nth_ext _ _ d d).
  - now rewrite length_tabulate.
  - intros i Hi. now rewrite nth_tabulate.
Qed.

Lemma in_tabulate {A : Type} (n : nat) (f : nat -> A) (x : A) :
  In x (tabulate n f) <-> exists i, i < n /\ x = f i.
Proof.
  unfold tabulate. rewrite in_map_iff. split.
  - intros (i & E & Hi). apply in_seq in Hi. exists i. split; [lia | now symmetry].
  - intros (i & Hi & E). exists i. split; [now symmetry | apply in_seq; lia].
Qed.

Lemma length_mk {A : Type} (r c : nat) (g : nat -> nat -> A) :
  length (mk r c g) = r.
Proof. apply length_tabulate. Qed.

Lemma ncols_mk {A : Type} (r c : nat) (g : nat -> nat -> A) :
  0 < r -> ncols (mk r c g) = c.
Proof.
  intros Hr. destruct r as [|r]; [lia|].
  unfold mk, tabulate. simpl. now rewrite length_map, length_seq.
Qed.

Lemma cell_mk {A : Type} (d : A) (r c : nat) (g : nat -> nat -> A) (i j : nat) :
  i < r -> j < c -> cell d (mk r c g) i j = g i j.
Proof.
  intros Hi Hj. unfold cell, mk.
  rewrite nth_tabulate by assumption. now rewrite nth_tabulate.
Qed.

Lemma mk_ext {A : Type} (r c : nat) (g g' : nat -> nat -> A) :
  (forall i j, i < r -> j < c -> g i j = g' i j) -> mk r c g = mk r c g'.
Proof.
  intros E. unfold mk. apply tabulate_ext. intros i Hi.
  apply tabulate_ext. intros j Hj. now apply E.
Qed.

Lemma shape_mk {A : Type} (r c : nat) (g : nat -> nat -> A) :
  shape (mk r c g) r c.
Proof.
  split; [apply length_mk|].
  apply Forall_forall. intros row Hin.
  apply in_tabulate in Hin. destruct Hin as (i & _ & ->).
  apply length_tabulate.
Qed.

Lemma shape_nth {A : Type} (m : list (list A)) (r c i : nat) :
  shape m r c -> i < r -> length (nth i m []) = c.
Proof.
  intros [Hl Hf] Hi. rewrite Forall_forall in Hf.
  apply Hf, nth_In. lia.
Qed.

Lemma shape_ncols {A : Type} (m : list (list A)) (r c : nat) :
  shape m r c -> 0 < r -> ncols m = c.
Proof.
  intros [Hl Hf] Hr. destruct m as [|row m]; simpl in *; [lia|].
  now inversion Hf.
Qed.

(** A well-shaped matrix is the table of its cells. *)
Lemma mk_cell {A : Type} (d : A) (m : list (list A)) (r c : nat) :
  shape m r c -> m = mk r c (cell d m).
Proof.
  intros Hs. pose proof Hs as [Hl Hf].
  apply (nth_ext _ _ [] []).
  - now rewrite length_mk.
  - intros i Hi. unfold mk. rewrite nth_tabulate by lia.
    rewrite (tabulate_nth (nth i m []) d) at 1.
    rewrite (shape_nth m r c i) by (auto; lia). reflexivity.
Qed.

Lemma map_map_mk {A B : Type} (h : A -> B) (r c : nat) (g : nat -> nat -> A) :
  map (map h) (mk r c g) = mk r c (fun i j => h (g i j)).
Proof.
  unfold mk. rewrite map_tabulate. apply tabulate_ext. intros i _.
  apply map_tabulate.
Qed.

Lemma in_concat_mk {A : Type} (r c : nat) (g : nat -> nat -> A) (x : A) :
  In x (concat (mk r c g)) <-> exists i j, i < r /\ j < c /\ x = g i j.
Proof.
  rewrite in_concat. split.
  - intros (row & Hrow & Hx). apply in_tabulate in Hrow.
    destruct Hrow as (i & Hi & ->). apply in_tabulate in Hx.
    destruct Hx as (j & Hj & ->). now exists i, j.
  - intros (i & j & Hi & Hj & ->). exists (tabulate c (fun j => g i j)). split.
    + apply in_tabulate. now exists i.
    + apply in_tabulate. now exists j.
Qed.

Lemma column_mk {A : Type} (d : A) (r c : nat) (g : nat -> nat -> A) (j : nat) :
  j < c -> column d j (mk r c g) = tabulate r (fun i => g i j).
Proof.
  intros Hj. unfold column, mk. rewrite map_tabulate.
  apply tabulate_ext. intros i _. now apply nth_tabulate.
Qed.

Lemma bidx_lt (n i : nat) : i < n -> bidx n i = i.
Proof. unfold bidx. destruct (Nat.eqb_spec n 1); lia. Qed.

Lemma bidx_one (i : nat) : bidx 1 i = 0.
Proof. reflexivity. Qed.

Lemma bdim_same (n : nat) : bdim n n = n.
Proof. unfold bdim. now destruct (n =? 1). Qed.

Lemma bdim_one_r (n : nat) : bdim n 1 = n.
Proof. unfold bdim. destruct (Nat.eqb_spec n 1); lia. Qed.

Lemma bdim_one_l (n : nat) : bdim 1 n = n.
Proof. reflexivity. Qed.

Lemma bidx_bound_l (x y i : nat) : 0 < x -> i < bdim x y -> bidx x i < x.
Proof. unfold bidx, bdim. destruct (Nat.eqb_spec x 1); lia. Qed.

Lemma bidx_bound_r (x y i : nat) :
  0 < y -> bcompat x y -> i < bdim x y -> bidx y i < y.
Proof.
  unfold bidx, bdim, bcompat.
  destruct (Nat.eqb_spec x 1), (Nat.eqb_spec y 1); lia.
Qed.

(** Broadcasting two tables gives the table of the broadcast cells. *)
Lemma broadcast2_mk {A B C : Type} (dA : A) (dB : B) (f : A -> B -> C)
  (ra ca rb cb : nat) (ga : nat -> nat -> A) (gb : nat -> nat -> B) :
  0 < ra -> 0 < rb -> 0 < ca -> 0 < cb -> bcompat ra rb -> bcompat ca cb ->
  broadcast2 dA dB f (mk ra ca ga) (mk rb cb gb)
  = mk (bdim ra rb) (bdim ca cb)
       (fun i j => f (ga (bidx ra i) (bidx ca j)) (gb (bidx rb i) (bidx cb j))).
Proof.
  intros Hra Hrb Hca Hcb Hr Hc. unfold broadcast2.
  rewrite !length_mk, !ncols_mk by assumption.
  apply mk_ext. intros i j Hi Hj. unfold bcell.
  rewrite !length_mk, !ncols_mk by assumption.
  rewrite !cell_mk; eauto using bidx_bound_l, bidx_bound_r.
Qed.

Lemma concat_singleton {A : Type} (l : list A) : concat [l] = l.
Proof. simpl. apply app_nil_r. Qed.

Lemma mk_one_col {A : Type} (r : nat) (h : nat -> A) :
  tabulate r (fun i => [h i]) = mk r 1 (fun i _ => h i).
Proof. reflexivity. Qed.

Lemma mk_one_row {A : Type} (c : nat) (h : nat -> A) :
  [tabulate c h] = mk 1 c (fun _ j => h j).
Proof. reflexivity. Qed.

Lemma map_mk_rows {A B : Type} (h : list A -> B) (r c : nat)
  (g : nat -> nat -> A) :
  map h (mk r c g) = tabulate r (fun i => h (tabulate c (g i))).
Proof. unfold mk. apply map_tabulate. Qed.

(** ** The reducer, cell by cell *)

Section ReducerCells.

Context {V : Type} {SV : Scalar V}.

Lemma values_reduce_rows_mk (d : DType) (r c : nat) (g : nat -> nat -> V) :
  0 < r -> 0 < c ->
  values (reduce_rows (mkTensor d (mk r c g)))
  = mk r c (fun i j => f_sub (g i j) (reduce_min_list (tabulate c (g i)))).
Proof.
  intros Hr Hc. unfold reduce_rows, tf_subtract, tf_reshape_col,
    tf_reduce_min_axis2, tf_cast. simpl.
  rewrite app_nil_r, map_mk_rows, map_tabulate, mk_one_col.
  rewrite broadcast2_mk; unfold bcompat; auto; try lia.
  rewrite bdim_same, bdim_one_r. apply mk_ext. intros i j Hi Hj.
  now rewrite !bidx_lt by assumption.
Qed.

Lemma values_reduce_cols_mk (d : DType) (r c : nat) (g : nat -> nat -> V) :
  0 < r -> 0 < c ->
  values (reduce_cols (mkTensor d (mk r c g)))
  = mk r c (fun i j =>
              f_sub (g i j) (reduce_min_list (tabulate r (fun i' => g i' j)))).
Proof.
  intros Hr Hc. unfold reduce_cols, tf_subtract, tf_reduce_min_axis1, tf_cast.
  simpl. rewrite ncols_mk by assumption.
  rewrite (tabulate_ext c _
             (fun j => reduce_min_list (tabulate r (fun i' => g i' j))))
    by (intros j Hj; now rewrite column_mk).
  rewrite mk_one_row.
  rewrite broadcast2_mk; unfold bcompat; auto; try lia.
  rewrite bdim_one_r, bdim_same. apply mk_ext. intros i j Hi Hj.
  now rewrite !bidx_lt by assumption.
Qed.

Lemma dtype_reduce_rows (t : Tensor V) : dtype (reduce_rows t) = Float16.
Proof. reflexivity. Qed.

Lemma dtype_reduce_cols (t : Tensor V) : dtype (reduce_cols t) = Float16.
Proof. reflexivity. Qed.

End ReducerCells.

(** ** Minima of integers *)

Lemma Zminimum_cons (x : Z) (l : list Z) :
  l <> [] -> Zminimum (x :: l) = Z.min x (Zminimum l).
Proof. destruct l; [congruence | reflexivity]. Qed.

Lemma Zminimum_le (l : list Z) (x : Z) : In x l -> (Zminimum l <= x)%Z.
Proof.
  induction l as [|y l IH]; [contradiction|].
  intros Hin. destruct l as [|z l].
  - destruct Hin as [->|[]]. simpl. lia.
  - rewrite Zminimum_cons by discriminate. destruct Hin as [->|Hin].
    + lia.
    + specialize (IH Hin). lia.
Qed.

Lemma Zminimum_in (l : list Z) : l <> [] -> In (Zminimum l) l.
Proof.
  induction l as [|y l IH]; [congruence|]. intros _.
  destruct l as [|z l].
  - now left.
  - rewrite Zminimum_cons by discriminate.
    destruct (Z.min_spec y (Zminimum (z :: l))) as [[_ ->]|[_ ->]].
    + now left.
    + right. apply IH. discriminate.
Qed.

Lemma fold_left_Zmin (l : list Z) (x : Z) :
  fold_left Z.min l x = Zminimum (x :: l).
Proof.
  revert x. induction l as [|y l IH]; intros x; [reflexivity|].
  simpl fold_left. rewrite IH.
  rewrite (Zminimum_cons x (y :: l)) by discriminate.
  destruct l as [|z l].
  - reflexivity.
  - rewrite (Zminimum_cons (Z.min x y) (z :: l)) by discriminate.
    rewrite (Zminimum_cons y (z :: l)) by discriminate. lia.
Qed.

(** On a non-empty list [tf.reduce_min] is the least element. *)
Lemma reduce_min_list_Z (l : list Z) :
  l <> [] -> reduce_min_list l = Zminimum l.
Proof.
  destruct l as [|x l]; [congruence|]. intros _.
  unfold reduce_min_list. simpl f_min. apply fold_left_Zmin.
Qed.

Lemma tabulate_not_nil {A : Type} (n : nat) (f : nat -> A) :
  0 < n -> tabulate n f <> [].
Proof.
  intros Hn E. apply (f_equal (@length A)) in E.
  rewrite length_tabulate in E. simpl in E. lia.
Qed.

Lemma Zminimum_tabulate_le (n : nat) (f : nat -> Z) (i : nat) :
  i < n -> (Zminimum (tabulate n f) <= f i)%Z.
Proof. intros Hi. apply Zminimum_le, in_tabulate. now exists i. Qed.

Lemma Zminimum_tabulate_in (n : nat) (f : nat -> Z) :
  0 < n -> exists i, i < n /\ Zminimum (tabulate n f) = f i.
Proof.
  intros Hn. apply in_tabulate, Zminimum_in. now apply tabulate_not_nil.
Qed.


(** ** Row and column reduction on integers *)

Lemma combine_seq_tabulate {A : Type} (n : nat) (f : nat -> A) :
  combine (seq 0 n) (tabulate n f) = tabulate n (fun j => (j, f j)).
Proof.
  unfold tabulate. generalize (seq 0 n) as l.
  induction l as [|x l IH]; simpl; [reflexivity | now rewrite IH].
Qed.

Lemma reduce_rows_eta {V : Type} {SV : Scalar V} (t : Tensor V) :
  reduce_rows t = mkTensor Float16 (values (reduce_rows t)).
Proof. reflexivity. Qed.

Lemma reduce_cols_eta {V : Type} {SV : Scalar V} (t : Tensor V) :
  reduce_cols t = mkTensor Float16 (values (reduce_cols t)).
Proof. reflexivity. Qed.

Lemma values_reduce_rows_Z (d : DType) (r c : nat) (g : nat -> nat -> Z) :
  0 < r -> 0 < c ->
  values (reduce_rows (mkTensor d (mk r c g))) = mk r c (row_reduced_cell c g).
Proof.
  intros Hr Hc. rewrite values_reduce_rows_mk by assumption.
  apply mk_ext. intros i j _ _. unfold row_reduced_cell. simpl f_sub.
  now rewrite reduce_min_list_Z by now apply tabulate_not_nil.
Qed.

Lemma values_reduce_cols_Z (d : DType) (r c : nat) (g : nat -> nat -> Z) :
  0 < r -> 0 < c ->
  values (reduce_cols (mkTensor d (mk r c g))) = mk r c (col_reduced_cell r g).
Proof.
  intros Hr Hc. rewrite values_reduce_cols_mk by assumption.
  apply mk_ext. intros i j _ _. unfold col_reduced_cell. simpl f_sub.
  now rewrite reduce_min_list_Z by now apply tabulate_not_nil.
Qed.

Lemma values_reduce_Z (d : DType) (r c : nat) (g : nat -> nat -> Z) :
  0 < r -> 0 < c ->
  values (reduce_cols (reduce_rows (mkTensor d (mk r c g))))
  = mk r c (reduced_cell r c g).
Proof.
  intros Hr Hc. rewrite reduce_rows_eta, values_reduce_rows_Z by assumption.
  now apply values_reduce_cols_Z.
Qed.



Lemma col_reduced_nonneg (r : nat) (g : nat -> nat -> Z) (i j : nat) :
  i < r -> (0 <= col_reduced_cell r g i j)%Z.
Proof.
  intros Hi. unfold col_reduced_cell.
  pose proof (Zminimum_tabulate_le r (fun i' => g i' j) i Hi). simpl in *. lia.
Qed.

Lemma col_reduced_zero (r : nat) (g : nat -> nat -> Z) (j : nat) :
  0 < r -> exists i, i < r /\ col_reduced_cell r g i j = 0%Z.
Proof.
  intros Hr.
  destruct (Zminimum_tabulate_in r (fun i' => g i' j) Hr) as (i & Hi & E).
  exists i. split; [assumption|]. unfold col_reduced_cell. simpl in *. lia.
Qed.



Lemma shape_zero_nil {A : Type} (m : list (list A)) (c : nat) :
  shape m 0 c -> m = [].
Proof. intros [Hl _]. now apply length_zero_iff_nil. Qed.

Lemma square_reduce (t : Tensor Z) (n : nat) :
  square (values t) n -> square (values (reduce_cols (reduce_rows t))) n.
Proof.
  destruct t as [d m]. cbn [values]. intros Hsq. destruct n as [|n'].
  - apply shape_zero_nil in Hsq. subst m. split; [reflexivity | constructor].
  - rewrite (mk_cell 0%Z m (S n') (S n') Hsq).
    rewrite values_reduce_Z by lia. apply shape_mk.
Qed.

(** ** The optimality test *)

Lemma fold_left_add_b2z (l : list bool) (a : Z) :
  fold_left Z.add (map (fun b : bool => if b then 1%Z else 0%Z) l) a
  = (a + Z.of_nat (count_true l))%Z.
Proof.
  revert a. induction l as [|b l IH]; intros a; simpl fold_left.
  - simpl. lia.
  - rewrite IH. simpl count_true. destruct b; lia.
Qed.

(** Summing the cast of a mask counts its marked lines. *)
Lemma reduce_sum_cast_bool (mask : BoolTensor) :
  tf_reduce_sum (V := Z) (tf_cast_bool mask) = Z.of_nat (count_marked mask).
Proof.
  unfold tf_reduce_sum, tf_cast_bool, count_marked. simpl values.
  rewrite <- concat_map.
  change (@f_add Z Z_scalar) with Z.add.
  change (@ZERO Z Z_scalar) with 0%Z. change (@ONE Z Z_scalar) with 1%Z.
  rewrite fold_left_add_b2z. lia.
Qed.

Lemma is_optimal_assignment_count (rows_mask cols_mask : BoolTensor) :
  length rows_mask = ncols cols_mask ->
  is_optimal_assignment (V := Z) rows_mask cols_mask
  = Ok (count_marked rows_mask + count_marked cols_mask =? length rows_mask).
Proof.
  intros E. unfold is_optimal_assignment. rewrite E, Nat.eqb_refl, <- E.
  rewrite !reduce_sum_cast_bool. f_equal.
  change (@f_add Z Z_scalar) with Z.add. change (@f_eqb Z Z_scalar) with Z.eqb.
  unfold of_Z. simpl.
  destruct (Nat.eqb_spec (count_marked rows_mask + count_marked cols_mask)
              (length rows_mask));
    destruct (Z.eqb_spec (Z.of_nat (length rows_mask))
                (Z.of_nat (count_marked rows_mask)
                 + Z.of_nat (count_marked cols_mask))); auto; lia.
Qed.

Lemma is_optimal_assignment_mismatch {V : Type} {SV : Scalar V}
  (rows_mask cols_mask : BoolTensor) :
  length rows_mask <> ncols cols_mask ->
  is_optimal_assignment (V := V) rows_mask cols_mask = AssertionError.
Proof.
  intros E. unfold is_optimal_assignment.
  now destruct (Nat.eqb_spec (length rows_mask) (ncols cols_mask)).
Qed.

(** ** Dtypes *)

Section Dtypes.

Context {V : Type} {SV : Scalar V}.

Lemma dtype_shift_zeros (t : Tensor V) (rows_mask cols_mask : BoolTensor) :
  dtype (fst (fst (shift_zeros t rows_mask cols_mask))) = dtype t.
Proof. reflexivity. Qed.

Lemma dtype_reduce_body (s : reduce_state) :
  match reduce_body s with
  | Ok (m, _, _) => dtype m = Float16
  | AssertionError => True
  end.
Proof.
  destruct s as [[m r] c]. unfold reduce_body.
  destruct (scratch_matrix (reduce_cols (reduce_rows m))) as [r' c'].
  destruct (is_optimal_assignment r' c') as [[|]|]; auto.
  destruct (shift_zeros (reduce_cols (reduce_rows m)) r' c') as [[m' r''] c'']
    eqn:E.
  change m' with (fst (fst (m', r'', c''))). rewrite <- E.
  apply dtype_shift_zeros.
Qed.

Lemma dtype_reduce_loop (fuel : nat) (s : reduce_state) :
  match reduce_loop fuel s with
  | Some (Ok (m, _, _)) => m = fst (fst s) \/ dtype m = Float16
  | _ => True
  end.
Proof.
  revert s. induction fuel as [|fuel IH]; intros s; simpl.
  - destruct (reduce_condition s) as [[|]|]; auto.
    destruct s as [[m r] c]. now left.
  - destruct (reduce_condition s) as [[|]|]; auto.
    + pose proof (dtype_reduce_body s) as Hb.
      destruct (reduce_body s) as [s'|]; auto.
      specialize (IH s'). destruct (reduce_loop fuel s') as [[[[m r] c]|]|]; auto.
      destruct s' as [[m' r'] c']. simpl in IH. destruct IH as [->|E]; auto.
    + destruct s as [[m r] c]. now left.
Qed.

(** C10: whatever the dtype of the input, [reduce_rows] and [reduce_cols]
    return a float16 tensor; [shift_zeros] keeps the dtype of its matrix, so
    the matrix one pass of the loop body hands on is float16, and the matrix
    [reduce_matrix] returns is float16 unless the loop returned its input
    without a pass. *)
Theorem reduce_float16 (t : Tensor V) :
  dtype (reduce_rows t) = Float16
  /\ dtype (reduce_cols t) = Float16
  /\ (forall rows_mask cols_mask,
        dtype (fst (fst (shift_zeros (reduce_cols (reduce_rows t))
                           rows_mask cols_mask))) = Float16)
  /\ (forall rows_mask cols_mask,
        match reduce_body (t, rows_mask, cols_mask) with
        | Ok (m, _, _) => dtype m = Float16
        | AssertionError => True
        end)
  /\ (forall fuel,
        match reduce_matrix fuel t with
        | Some (Ok m) => m = t \/ dtype m = Float16
        | _ => True
        end).
Proof.
  split; [reflexivity|]. split; [reflexivity|]. split; [reflexivity|].
  split.
  - intros r c. apply dtype_reduce_body.
  - intros fuel. unfold reduce_matrix.
    pose proof (dtype_reduce_loop fuel (reduce_init t)) as H.
    destruct (reduce_loop fuel (reduce_init t)) as [[[[m r] c]|]|]; auto.
Qed.

End Dtypes.

(** ** Counting marked cells *)

Lemma count_true_app (l l' : list bool) :
  count_true (l ++ l') = count_true l + count_true l'.
Proof. induction l as [|b l IH]; simpl; [reflexivity | rewrite IH; lia]. Qed.

Lemma count_true_map_le {A : Type} (f f' : A -> bool) (l : list A) :
  (forall x, In x l -> f' x = true -> f x = true) ->
  count_true (map f' l) <= count_true (map f l).
Proof.
  induction l as [|x l IH]; intros H; simpl; [lia|].
  assert (IHl : count_true (map f' l) <= count_true (map f l))
    by (apply IH; intros y Hy; apply H; now right).
  pose proof (H x (or_introl eq_refl)) as Hx.
  destruct (f' x), (f x); try lia; specialize (Hx eq_refl); discriminate.
Qed.

Lemma count_true_map_lt {A : Type} (f f' : A -> bool) (l : list A) :
  (forall x, In x l -> f' x = true -> f x = true) ->
  (exists x, In x l /\ f x = true /\ f' x = false) ->
  count_true (map f' l) < count_true (map f l).
Proof.
  induction l as [|x l IH]; intros H (y & Hy & Hf & Hf'); [contradiction|].
  simpl.
  assert (Hle : count_true (map f' l) <= count_true (map f l))
    by (apply count_true_map_le; intros z Hz; apply H; now right).
  destruct Hy as [->|Hy].
  - rewrite Hf, Hf'. lia.
  - assert (Hlt : count_true (map f' l) < count_true (map f l)).
    { apply IH; [intros z Hz; apply H; now right | now exists y]. }
    pose proof (H x (or_introl eq_refl)) as Hx.
    destruct (f' x), (f x); try lia; specialize (Hx eq_refl); discriminate.
Qed.

Lemma list_sum_map_le {A : Type} (f f' : A -> nat) (l : list A) :
  (forall x, In x l -> f' x <= f x) ->
  list_sum (map f' l) <= list_sum (map f l).
Proof.
  induction l as [|x l IH]; intros H; simpl; [lia|].
  pose proof (H x (or_introl eq_refl)).
  assert (list_sum (map f' l) <= list_sum (map f l))
    by (apply IH; intros y Hy; apply H; now right).
  lia.
Qed.

Lemma list_sum_map_lt {A : Type} (f f' : A -> nat) (l : list A) :
  (forall x, In x l -> f' x <= f x) ->
  (exists x, In x l /\ f' x < f x) ->
  list_sum (map f' l) < list_sum (map f l).
Proof.
  induction l as [|x l IH]; intros H (y & Hy & Hlt); [contradiction|].
  simpl. pose proof (H x (or_introl eq_refl)).
  assert (list_sum (map f' l) <= list_sum (map f l))
    by (apply list_sum_map_le; intros z Hz; apply H; now right).
  destruct Hy as [->|Hy]; [lia|].
  assert (list_sum (map f' l) < list_sum (map f l)).
  { apply IH; [intros z Hz; apply H; now right | now exists y]. }
  lia.
Qed.

Lemma count_cells_mk (r c : nat) (f : nat -> nat -> bool) :
  count_cells (mk r c f)
  = list_sum (tabulate r (fun i => count_true (tabulate c (f i)))).
Proof. unfold count_cells. now rewrite map_mk_rows. Qed.

(** Clearing cells, at least one of them set, lowers the count. *)
Lemma count_cells_lt (r c : nat) (f f' : nat -> nat -> bool) :
  (forall i j, i < r -> j < c -> f' i j = true -> f i j = true) ->
  (exists i j, i < r /\ j < c /\ f i j = true /\ f' i j = false) ->
  count_cells (mk r c f') < count_cells (mk r c f).
Proof.
  intros Hsub (i & j & Hi & Hj & Hf & Hf'). rewrite !count_cells_mk.
  unfold tabulate. apply list_sum_map_lt.
  - intros x Hx. apply in_seq in Hx. apply count_true_map_le.
    intros y Hy. apply in_seq in Hy. apply Hsub; lia.
  - exists i. split; [apply in_seq; lia|]. apply count_true_map_lt.
    + intros y Hy. apply in_seq in Hy. apply Hsub; lia.
    + exists j. split; [apply in_seq; lia | auto].
Qed.

Lemma count_true_pos (l : list bool) :
  0 < count_true l -> exists j, j < length l /\ nth j l false = true.
Proof.
  induction l as [|b l IH]; simpl; [lia|]. intros H. destruct b.
  - exists 0. split; [lia | reflexivity].
  - destruct (IH H) as (j & Hj & E). exists (S j). split; [lia | assumption].
Qed.

Lemma count_true_In (l : list bool) : In true l -> 0 < count_true l.
Proof.
  induction l as [|b l IH]; [contradiction|]. intros [->|Hin]; simpl; [lia|].
  specialize (IH Hin). lia.
Qed.

Lemma reduce_max_ge (l : list nat) (x : nat) : In x l -> x <= reduce_max l.
Proof.
  induction l as [|y l IH]; [contradiction|].
  change (reduce_max (y :: l)) with (Nat.max y (reduce_max l)).
  intros [->|Hin]; [lia|]. specialize (IH Hin). lia.
Qed.

(** [argmax] points at a largest count. *)
Lemma argmax_spec (l : list nat) :
  l <> [] -> argmax l < length l /\ nth (argmax l) l 0 = reduce_max l.
Proof.
  induction l as [|x l IH]; [congruence|]. intros _. simpl argmax.
  change (reduce_max (x :: l)) with (Nat.max x (reduce_max l)).
  destruct (Nat.leb_spec (reduce_max l) x) as [Hle|Hlt].
  - simpl. split; lia.
  - destruct l as [|y l]; [simpl in Hlt; lia|].
    destruct IH as [Hlen E]; [discriminate|].
    split; [simpl in *; lia|].
    change (nth (S (argmax (y :: l))) (x :: y :: l) 0)
      with (nth (argmax (y :: l)) (y :: l) 0).
    rewrite E. lia.
Qed.

Lemma repeat_tabulate {A : Type} (x : A) (n : nat) :
  repeat x n = tabulate n (fun _ => x).
Proof.
  apply (nth_ext _ _ x x).
  - now rewrite repeat_length, length_tabulate.
  - intros i Hi. rewrite repeat_length in Hi.
    now rewrite nth_repeat, nth_tabulate.
Qed.

Lemma tf_zeros_bool_mk (r c : nat) :
  tf_zeros_bool r c = mk r c (fun _ _ => false).
Proof.
  unfold tf_zeros_bool, mk. rewrite repeat_tabulate.
  apply tabulate_ext. intros i _. apply repeat_tabulate.
Qed.

Lemma tf_reduce_any_mk (r c : nat) (f : nat -> nat -> bool) :
  tf_reduce_any (mk r c f) = true <->
  exists i j, i < r /\ j < c /\ f i j = true.
Proof.
  unfold tf_reduce_any. rewrite existsb_exists. split.
  - intros (row & Hrow & Hex). apply in_tabulate in Hrow.
    destruct Hrow as (i & Hi & ->). apply existsb_exists in Hex.
    destruct Hex as (b & Hb & Eb). apply in_tabulate in Hb.
    destruct Hb as (j & Hj & ->). now exists i, j.
  - intros (i & j & Hi & Hj & E). exists (tabulate c (f i)). split.
    + apply in_tabulate. now exists i.
    + apply existsb_exists. exists true. split; [|reflexivity].
      apply in_tabulate. exists j. auto.
Qed.

(** ** The zero cover *)

Lemma expand_item_mask_rows (n : nat) (h : nat -> bool) :
  0 < n -> expand_item_mask (mk n 1 (fun i _ => h i)) = mk n n (fun i _ => h i).
Proof.
  intros Hn. unfold expand_item_mask.
  rewrite length_mk, ncols_mk, bdim_one_r by assumption.
  apply mk_ext. intros i j Hi Hj. unfold bcell.
  rewrite length_mk, ncols_mk by assumption.
  rewrite (bidx_lt n i) by assumption. rewrite bidx_one.
  now rewrite cell_mk by lia.
Qed.

Lemma expand_item_mask_cols (n : nat) (h : nat -> bool) :
  0 < n -> expand_item_mask (mk 1 n (fun _ j => h j)) = mk n n (fun _ j => h j).
Proof.
  intros Hn. unfold expand_item_mask.
  rewrite length_mk, ncols_mk, bdim_one_l by lia.
  apply mk_ext. intros i j Hi Hj. unfold bcell.
  rewrite length_mk, ncols_mk by lia.
  rewrite (bidx_lt n j) by assumption. rewrite bidx_one.
  now rewrite cell_mk by lia.
Qed.

Lemma tf_logical_and_full (n : nat) (f g : nat -> nat -> bool) :
  0 < n ->
  tf_logical_and (mk n n f) (mk n n g) = mk n n (fun i j => f i j && g i j).
Proof.
  intros Hn. unfold tf_logical_and.
  rewrite broadcast2_mk; unfold bcompat; auto.
  rewrite bdim_same. apply mk_ext. intros i j Hi Hj.
  now rewrite !bidx_lt by assumption.
Qed.

Lemma tf_logical_or_rows (n : nat) (f g : nat -> bool) :
  0 < n ->
  tf_logical_or (mk n 1 (fun i _ => f i)) (mk n 1 (fun i _ => g i))
  = mk n 1 (fun i _ => f i || g i).
Proof.
  intros Hn. unfold tf_logical_or.
  rewrite broadcast2_mk; unfold bcompat; auto.
  rewrite (bdim_same n). change (bdim 1 1) with 1.
  apply mk_ext. intros i j Hi Hj.
  now rewrite !bidx_lt by assumption.
Qed.

Lemma tf_logical_or_cols (n : nat) (f g : nat -> bool) :
  0 < n ->
  tf_logical_or (mk 1 n (fun _ j => f j)) (mk 1 n (fun _ j => g j))
  = mk 1 n (fun _ j => f j || g j).
Proof.
  intros Hn. unfold tf_logical_or.
  rewrite broadcast2_mk; unfold bcompat; auto.
  rewrite (bdim_same n). change (bdim 1 1) with 1.
  apply mk_ext. intros i j Hi Hj.
  now rewrite !bidx_lt by assumption.
Qed.

Lemma count_zeros_in_rows_mk (n : nat) (zf : nat -> nat -> bool) :
  count_zeros_in_rows (mk n n zf)
  = tabulate n (fun i => count_true (tabulate n (zf i))).
Proof. unfold count_zeros_in_rows. apply map_mk_rows. Qed.

Lemma count_zeros_in_cols_mk (n : nat) (zf : nat -> nat -> bool) :
  0 < n ->
  count_zeros_in_cols (mk n n zf)
  = tabulate n (fun j => count_true (tabulate n (fun i => zf i j))).
Proof.
  intros Hn. unfold count_zeros_in_cols. rewrite ncols_mk by assumption.
  apply tabulate_ext. intros j Hj. now rewrite column_mk.
Qed.

Lemma scratch_row_mk (n : nat) (zf : nat -> nat -> bool) (rf : nat -> bool)
  (cols_mask : BoolTensor) :
  0 < n ->
  let k := argmax (count_zeros_in_rows (mk n n zf)) in
  scratch_row (mk n n zf, mk n 1 (fun i _ => rf i), cols_mask)
  = (mk n n (fun i j => zf i j && negb (i =? k)),
     mk n 1 (fun i _ => rf i || (i =? k)),
     cols_mask).
Proof.
  intros Hn k. unfold scratch_row, get_row_mask_with_max_zeros.
  fold k. rewrite length_mk.
  change (tabulate n (fun i => [i =? k])) with (mk n 1 (fun i (_ : nat) => i =? k)).
  rewrite expand_item_mask_rows, tf_logical_or_rows by assumption.
  unfold tf_logical_not. rewrite map_map_mk.
  now rewrite tf_logical_and_full.
Qed.

Lemma scratch_col_mk (n : nat) (zf : nat -> nat -> bool) (cf : nat -> bool)
  (rows_mask : BoolTensor) :
  0 < n ->
  let k := argmax (count_zeros_in_cols (mk n n zf)) in
  scratch_col (mk n n zf, rows_mask, mk 1 n (fun _ j => cf j))
  = (mk n n (fun i j => zf i j && negb (j =? k)),
     rows_mask,
     mk 1 n (fun _ j => cf j || (j =? k))).
Proof.
  intros Hn k. unfold scratch_col, get_col_mask_with_max_zeros.
  fold k. rewrite ncols_mk by assumption.
  change [tabulate n (fun j => j =? k)] with (mk 1 n (fun (_ : nat) j => j =? k)).
  rewrite expand_item_mask_cols, tf_logical_or_cols by assumption.
  unfold tf_logical_not. rewrite map_map_mk.
  now rewrite tf_logical_and_full.
Qed.

(** The row the argmax selects holds a residual zero when rows win. *)
Lemma selected_row_has_zero (n : nat) (zf : nat -> nat -> bool) :
  0 < n ->
  reduce_max (count_zeros_in_cols (mk n n zf))
  < reduce_max (count_zeros_in_rows (mk n n zf)) ->
  let k := argmax (count_zeros_in_rows (mk n n zf)) in
  k < n /\ exists j, j < n /\ zf k j = true.
Proof.
  intros Hn Hlt k. unfold k. rewrite count_zeros_in_rows_mk in *.
  set (RC := tabulate n (fun i => count_true (tabulate n (zf i)))) in *.
  destruct (argmax_spec RC) as [Hk E]; [now apply tabulate_not_nil|].
  unfold RC in Hk at 2. rewrite length_tabulate in Hk. split; [assumption|].
  unfold RC in E at 2. rewrite nth_tabulate in E by assumption.
  destruct (count_true_pos (tabulate n (zf (argmax RC)))) as (j & Hj & Ej);
    [lia|].
  rewrite length_tabulate in Hj. rewrite nth_tabulate in Ej by assumption.
  now exists j.
Qed.

(** The column the argmax selects holds a residual zero when one is left. *)
Lemma selected_col_has_zero (n : nat) (zf : nat -> nat -> bool) :
  0 < n ->
  (exists i j, i < n /\ j < n /\ zf i j = true) ->
  let k := argmax (count_zeros_in_cols (mk n n zf)) in
  k < n /\ exists i, i < n /\ zf i k = true.
Proof.
  intros Hn (i0 & j0 & Hi0 & Hj0 & E0) k. unfold k.
  rewrite count_zeros_in_cols_mk by assumption.
  set (CC := tabulate n (fun j => count_true (tabulate n (fun i => zf i j)))).
  destruct (argmax_spec CC) as [Hk E]; [now apply tabulate_not_nil|].
  unfold CC in Hk at 2. rewrite length_tabulate in Hk. split; [assumption|].
  unfold CC in E at 2. rewrite nth_tabulate in E by assumption.
  assert (Hpos : 0 < reduce_max CC).
  { apply Nat.lt_le_trans
      with (count_true (tabulate n (fun i => zf i j0))).
    - apply count_true_In, in_tabulate. exists i0. auto.
    - apply reduce_max_ge, in_tabulate. now exists j0. }
  destruct (count_true_pos (tabulate n (fun i => zf i (argmax CC))))
    as (i & Hi & Ei); [lia|].
  rewrite length_tabulate in Hi. rewrite nth_tabulate in Ei by assumption.
  now exists i.
Qed.

(** One pass of the body keeps the invariant and removes a residual zero. *)
Lemma scratch_body_step (n : nat) (z0 : nat -> nat -> bool) (s : scratch_state) :
  0 < n -> scratch_inv n z0 s -> scratch_condition s = true ->
  scratch_inv n z0 (scratch_body s)
  /\ scratch_measure (scratch_body s) < scratch_measure s.
Proof.
  intros Hn (zf & rf & cf & -> & Hcov) Hcond.
  unfold scratch_condition in Hcond. apply tf_reduce_any_mk in Hcond.
  unfold scratch_body.
  destruct (Nat.ltb_spec (reduce_max (count_zeros_in_cols (mk n n zf)))
              (reduce_max (count_zeros_in_rows (mk n n zf)))) as [Hlt|Hge].
  - rewrite scratch_row_mk by assumption.
    destruct (selected_row_has_zero n zf Hn Hlt) as (Hk & j & Hj & Ej).
    set (k := argmax (count_zeros_in_rows (mk n n zf))) in *. split.
    + eexists _, _, cf. split; [reflexivity|]. cbv beta.
      intros i j' Hi Hj' Hz.
      destruct (Hcov i j' Hi Hj' Hz) as [E|[E|E]].
      * destruct (Nat.eqb_spec i k);
          [right; left; apply orb_true_r | left; now rewrite E].
      * right. left. now rewrite E.
      * right. now right.
    + simpl scratch_measure. apply count_cells_lt.
      * intros i j' _ _ E. now apply andb_true_iff in E.
      * exists k, j. rewrite Ej, Nat.eqb_refl. auto.
  - rewrite scratch_col_mk by assumption.
    destruct (selected_col_has_zero n zf Hn Hcond) as (Hk & i & Hi & Ei).
    set (k := argmax (count_zeros_in_cols (mk n n zf))) in *. split.
    + eexists _, rf, _. split; [reflexivity|]. cbv beta.
      intros i' j Hi' Hj Hz.
      destruct (Hcov i' j Hi' Hj Hz) as [E|[E|E]].
      * destruct (Nat.eqb_spec j k);
          [right; right; apply orb_true_r | left; now rewrite E].
      * right. now left.
      * right. right. now rewrite E.
    + simpl scratch_measure. apply count_cells_lt.
      * intros i' j _ _ E. now apply andb_true_iff in E.
      * exists i, k. rewrite Ei, Nat.eqb_refl. auto.
Qed.

(** Unrolled as often as there are residual zeros, the loop has left. *)
Lemma scratch_loop_exits (n : nat) (z0 : nat -> nat -> bool) (bound : nat)
  (s : scratch_state) :
  0 < n -> scratch_inv n z0 s -> scratch_measure s <= bound ->
  let s' := loop_upto bound scratch_condition scratch_body s in
  scratch_inv n z0 s' /\ scratch_condition s' = false.
Proof.
  intros Hn. revert s. induction bound as [|bound IH]; intros s Hinv Hm; simpl.
  - split; [assumption|].
    destruct (scratch_condition s) eqn:Hc; [|reflexivity].
    destruct (scratch_body_step n z0 s Hn Hinv Hc) as [_ Hlt]. lia.
  - destruct (scratch_condition s) eqn:Hc; [|now split].
    destruct (scratch_body_step n z0 s Hn Hinv Hc) as [Hinv' Hlt].
    apply IH; [assumption | lia].
Qed.

Section Cover.

Context {V : Type} {SV : Scalar V}.

Lemma scratch_init_mk (d : DType) (n : nat) (g : nat -> nat -> V) :
  0 < n ->
  scratch_init (mkTensor d (mk n n g))
  = (mk n n (fun i j => f_eqb (g i j) ZERO),
     mk n 1 (fun _ _ => false),
     mk 1 n (fun _ _ => false)).
Proof.
  intros Hn. unfold scratch_init, tf_equal. simpl values.
  now rewrite length_mk, ncols_mk, map_map_mk, !tf_zeros_bool_mk.
Qed.

(** When the loop of [scratch_matrix] has run on an [n] by [n] matrix it has
    left, and the invariant holds of its last state. *)
Lemma scratch_final_spec (t : Tensor V) (n : nat) :
  0 < n -> square (values t) n ->
  scratch_inv n (fun i j => f_eqb (cell ZERO (values t) i j) ZERO)
    (scratch_final t)
  /\ scratch_condition (scratch_final t) = false.
Proof.
  intros Hn Hsq. destruct t as [d m]. simpl values in *.
  unfold scratch_final.
  apply scratch_loop_exits; [assumption | |].
  - rewrite (mk_cell ZERO m n n Hsq) at 1. rewrite scratch_init_mk by assumption.
    exists (fun i j => f_eqb (cell ZERO m i j) ZERO),
      (fun _ => false), (fun _ => false).
    split; [reflexivity | auto].
  - unfold scratch_init, scratch_measure. apply Nat.le_refl.
Qed.

(** On an [n] by [n] matrix the masks [scratch_matrix] returns have the
    shapes [(n, 1)] and [(1, n)], and every cell equal to [ZERO] lies on a
    marked row or on a marked column. *)
Lemma scratch_matrix_cover (t : Tensor V) (n : nat)
  (rows_mask cols_mask : BoolTensor) :
  0 < n -> square (values t) n -> scratch_matrix t = (rows_mask, cols_mask) ->
  shape rows_mask n 1 /\ shape cols_mask 1 n
  /\ forall i j, i < n -> j < n -> f_eqb (cell ZERO (values t) i j) ZERO = true ->
                 row_marked rows_mask i = true \/ col_marked cols_mask j = true.
Proof.
  intros Hn Hsq E. unfold scratch_matrix in E.
  destruct (scratch_final_spec t n Hn Hsq)
    as [(zf & rf & cf & Es & Hcov) Hexit].
  rewrite Es in E, Hexit. inversion E; subst rows_mask cols_mask; clear E.
  split; [apply shape_mk|]. split; [apply shape_mk|].
  intros i j Hi Hj Hz. unfold row_marked, col_marked.
  rewrite !cell_mk by lia.
  destruct (Hcov i j Hi Hj Hz) as [Ez|[Er|Ec]]; auto.
  exfalso. unfold scratch_condition in Hexit.
  assert (Hany : tf_reduce_any (mk n n zf) = true)
    by (apply tf_reduce_any_mk; now exists i, j).
  congruence.
Qed.

End Cover.

(** C4: on a square matrix the loop of [scratch_matrix] ends (its exit
    condition holds of the state it stops in), the masks returned have the
    shapes [(n, 1)] and [(1, n)], and every cell of the matrix equal to zero
    lies on a row marked in the row mask or on a column marked in the
    column mask. *)
Theorem scratch_matrix_covers_zeros (t : Tensor Z) (n : nat)
  (rows_mask cols_mask : BoolTensor) :
  square (values t) n -> scratch_matrix t = (rows_mask, cols_mask) ->
  scratch_condition (scratch_final t) = false
  /\ shape rows_mask n 1 /\ shape cols_mask 1 n
  /\ forall i j, i < n -> j < n -> cell 0%Z (values t) i j = 0%Z ->
                 row_marked rows_mask i = true \/ col_marked cols_mask j = true.
Proof.
  intros Hsq E. destruct n as [|n'].
  - destruct t as [d m]. simpl values in Hsq. apply shape_zero_nil in Hsq.
    subst m. cbv in E. inversion E; subst. split; [reflexivity|].
    split; [split; [reflexivity | constructor]|].
    split; [split; [reflexivity | repeat constructor]|].
    intros i j Hi. lia.
  - assert (Hn : 0 < S n') by lia.
    split; [now apply (scratch_final_spec t (S n') Hn Hsq)|].
    destruct (scratch_matrix_cover t (S n') rows_mask cols_mask Hn Hsq E)
      as (Hr & Hc & Hcov).
    split; [assumption|]. split; [assumption|].
    intros i j Hi Hj Hz. apply Hcov; auto.
    change (@ZERO Z Z_scalar) with 0%Z. rewrite Hz. reflexivity.
Qed.

Lemma scratch_matrix_covers_zeros_witness :
  square (values (f16 [[15; 15; 0]; [0; 0; 10]; [5; 5; 0]]%Z)) 3
  /\ scratch_matrix (f16 [[15; 15; 0]; [0; 0; 10]; [5; 5; 0]]%Z)
     = ([[false]; [true]; [false]], [[false; false; true]])
  /\ (forall i j, i < 3 -> j < 3 ->
        cell 0%Z (values (f16 [[15; 15; 0]; [0; 0; 10]; [5; 5; 0]]%Z)) i j = 0%Z ->
        row_marked [[false]; [true]; [false]] i = true
        \/ col_marked [[false; false; true]] j = true).
Proof.
  assert (Hsq : square (values (f16 [[15; 15; 0]; [0; 0; 10]; [5; 5; 0]]%Z)) 3)
    by (split; [reflexivity | repeat constructor]).
  assert (E : scratch_matrix (f16 [[15; 15; 0]; [0; 0; 10]; [5; 5; 0]]%Z)
              = ([[false]; [true]; [false]], [[false; false; true]]))
    by reflexivity.
  split; [exact Hsq|]. split; [exact E|].
  apply (scratch_matrix_covers_zeros _ 3 _ _ Hsq E).
Defined.

(** ** Broadcasting on the shapes the steps use *)

Lemma broadcast2_full_full {A B C : Type} (dA : A) (dB : B) (h : A -> B -> C)
  (n : nat) (f : nat -> nat -> A) (g : nat -> nat -> B) :
  0 < n ->
  broadcast2 dA dB h (mk n n f) (mk n n g) = mk n n (fun i j => h (f i j) (g i j)).
Proof.
  intros Hn. rewrite broadcast2_mk by (unfold bcompat; auto; lia).
  rewrite ?(bdim_same n), ?(bdim_one_r n), ?(bdim_one_l n).
  change (bdim 1 1) with 1.
  apply mk_ext. intros i j Hi Hj.
  now rewrite ?bidx_one, ?(bidx_lt n i), ?(bidx_lt n j) by assumption.
Qed.

Lemma broadcast2_scalar_full {A B C : Type} (dA : A) (dB : B) (h : A -> B -> C)
  (n : nat) (x : A) (g : nat -> nat -> B) :
  0 < n ->
  broadcast2 dA dB h [[x]] (mk n n g) = mk n n (fun i j => h x (g i j)).
Proof.
  intros Hn. change [[x]] with (mk 1 1 (fun (_ _ : nat) => x)).
  rewrite broadcast2_mk by (unfold bcompat; auto; lia).
  rewrite ?(bdim_same n), ?(bdim_one_r n), ?(bdim_one_l n).
  change (bdim 1 1) with 1.
  apply mk_ext. intros i j Hi Hj.
  now rewrite ?bidx_one, ?(bidx_lt n i), ?(bidx_lt n j) by assumption.
Qed.

Lemma broadcast2_full_scalar {A B C : Type} (dA : A) (dB : B) (h : A -> B -> C)
  (n : nat) (f : nat -> nat -> A) (y : B) :
  0 < n ->
  broadcast2 dA dB h (mk n n f) [[y]] = mk n n (fun i j => h (f i j) y).
Proof.
  intros Hn. change [[y]] with (mk 1 1 (fun (_ _ : nat) => y)).
  rewrite broadcast2_mk by (unfold bcompat; auto; lia).
  rewrite ?(bdim_same n), ?(bdim_one_r n), ?(bdim_one_l n).
  change (bdim 1 1) with 1.
  apply mk_ext. intros i j Hi Hj.
  now rewrite ?bidx_one, ?(bidx_lt n i), ?(bidx_lt n j) by assumption.
Qed.

Lemma broadcast2_col_row {A B C : Type} (dA : A) (dB : B) (h : A -> B -> C)
  (n : nat) (f : nat -> nat -> A) (g : nat -> nat -> B) :
  0 < n ->
  broadcast2 dA dB h (mk n 1 f) (mk 1 n g) = mk n n (fun i j => h (f i 0) (g 0 j)).
Proof.
  intros Hn. rewrite broadcast2_mk by (unfold bcompat; auto; lia).
  rewrite ?(bdim_same n), ?(bdim_one_r n), ?(bdim_one_l n).
  change (bdim 1 1) with 1.
  apply mk_ext. intros i j Hi Hj.
  now rewrite ?bidx_one, ?(bidx_lt n i), ?(bidx_lt n j) by assumption.
Qed.

(** ** The zero shifter, cell by cell *)

Lemma shift_zeros_mk {V : Type} {SV : Scalar V} (d : DType) (n : nat)
  (g : nat -> nat -> V) (rf cf : nat -> nat -> bool) :
  0 < n ->
  shift_zeros (mkTensor d (mk n n g)) (mk n 1 rf) (mk 1 n cf)
  = (mkTensor d (mk n n (shifted_cell n g rf cf)), mk n 1 rf, mk 1 n cf).
Proof.
  intros Hn. unfold shift_zeros, tf_add, tf_multiply, tf_subtract, tf_reduce_min,
    tf_cast_bool, scalar, tf_logical_and, tf_logical_or, tf_logical_not.
  cbn [values dtype].
  repeat first
    [ rewrite map_map_mk
    | rewrite broadcast2_col_row by assumption
    | rewrite broadcast2_full_full by assumption
    | rewrite broadcast2_scalar_full by assumption
    | rewrite broadcast2_full_scalar by assumption ].
  reflexivity.
Qed.

Lemma Zminimum_unique (l : list Z) (mu : Z) :
  In mu l -> (forall x, In x l -> (mu <= x)%Z) -> Zminimum l = mu.
Proof.
  intros Hin Hle. pose proof (Zminimum_le l mu Hin) as H1.
  assert (Hne : l <> []) by (intros ->; contradiction).
  pose proof (Hle _ (Zminimum_in l Hne)) as H2. lia.
Qed.

Lemma concat_mk_not_nil {A : Type} (n : nat) (g : nat -> nat -> A) :
  0 < n -> concat (mk n n g) <> [].
Proof.
  intros Hn E. assert (Hin : In (g 0 0) (concat (mk n n g)))
    by (apply in_concat_mk; now exists 0, 0).
  rewrite E in Hin. contradiction.
Qed.

Lemma outline_weight_Z (g : nat -> nat -> Z) (rf cf : nat -> nat -> bool)
  (i j : nat) :
  outline_weight g rf cf i j
  = if negb (rf i 0 || cf 0 j) then g i j else F16_MAX.
Proof.
  unfold outline_weight, b2v.
  change (@f_add Z Z_scalar) with Z.add. change (@f_mul Z Z_scalar) with Z.mul.
  change (@f_sub Z Z_scalar) with Z.sub. change (@f_max Z Z_scalar) with F16_MAX.
  change (@ONE Z Z_scalar) with 1%Z. change (@ZERO Z Z_scalar) with 0%Z.
  destruct (negb (rf i 0 || cf 0 j)); lia.
Qed.

Lemma shift_delta_Z (n : nat) (g : nat -> nat -> Z) (rf cf : nat -> nat -> bool) :
  0 < n ->
  shift_delta n g rf cf
  = Zminimum (concat (mk n n (fun i j =>
      if negb (rf i 0 || cf 0 j) then g i j else F16_MAX))).
Proof.
  intros Hn. unfold shift_delta.
  rewrite reduce_min_list_Z by now apply concat_mk_not_nil.
  f_equal. f_equal. apply mk_ext. intros i j _ _. apply outline_weight_Z.
Qed.

Lemma shifted_cell_Z (n : nat) (g : nat -> nat -> Z) (rf cf : nat -> nat -> bool)
  (i j : nat) :
  shifted_cell n g rf cf i j
  = if negb (rf i 0 || cf 0 j) then (g i j - shift_delta n g rf cf)%Z
    else if rf i 0 && cf 0 j then (g i j + shift_delta n g rf cf)%Z
    else g i j.
Proof.
  unfold shifted_cell, b2v. cbv zeta.
  change (@f_add Z Z_scalar) with Z.add. change (@f_mul Z Z_scalar) with Z.mul.
  change (@f_sub Z Z_scalar) with Z.sub.
  change (@ONE Z Z_scalar) with 1%Z. change (@ZERO Z Z_scalar) with 0%Z.
  destruct (rf i 0), (cf 0 j); simpl; lia.
Qed.

(** With an outline cell and values within the float16 range, the minimum
    [shift_zeros] computes is the least outline value. *)
Lemma shift_delta_outline (n : nat) (g : nat -> nat -> Z)
  (rf cf : nat -> nat -> bool) :
  (forall i j, i < n -> j < n -> (g i j <= F16_MAX)%Z) ->
  (exists i j, i < n /\ j < n /\ negb (rf i 0 || cf 0 j) = true) ->
  (exists i j, i < n /\ j < n /\ negb (rf i 0 || cf 0 j) = true
               /\ g i j = shift_delta n g rf cf)
  /\ (forall i j, i < n -> j < n -> negb (rf i 0 || cf 0 j) = true ->
                  (shift_delta n g rf cf <= g i j)%Z).
Proof.
  intros Hmax (i0 & j0 & Hi0 & Hj0 & Ho0).
  assert (Hn : 0 < n) by lia. rewrite shift_delta_Z by assumption.
  set (W := fun i j => if negb (rf i 0 || cf 0 j) then g i j else F16_MAX).
  assert (Hle : forall i j, i < n -> j < n ->
                            (Zminimum (concat (mk n n W)) <= W i j)%Z).
  { intros i j Hi Hj. apply Zminimum_le, in_concat_mk. now exists i, j. }
  assert (Hout : forall i j, i < n -> j < n ->
                 negb (rf i 0 || cf 0 j) = true ->
                 (Zminimum (concat (mk n n W)) <= g i j)%Z).
  { intros i j Hi Hj Ho. specialize (Hle i j Hi Hj). unfold W in Hle.
    now rewrite Ho in Hle. }
  split; [|exact Hout].
  destruct (proj1 (in_concat_mk n n W _)
              (Zminimum_in _ (concat_mk_not_nil n W Hn)))
    as (i & j & Hi & Hj & E).
  unfold W in E at 2. destruct (negb (rf i 0 || cf 0 j)) eqn:Ho.
  - exists i, j. auto.
  - exists i0, j0. repeat split; auto.
    specialize (Hout i0 j0 Hi0 Hj0 Ho0). specialize (Hmax i0 j0 Hi0 Hj0). lia.
Qed.

Lemma shift_zeros_cells {V : Type} {SV : Scalar V} (t : Tensor V)
  (rows_mask cols_mask : BoolTensor) (n : nat) :
  0 < n -> square (values t) n -> shape rows_mask n 1 -> shape cols_mask 1 n ->
  shift_zeros t rows_mask cols_mask
  = (mkTensor (dtype t)
       (mk n n (shifted_cell n (cell ZERO (values t))
                  (cell false rows_mask) (cell false cols_mask))),
     rows_mask, cols_mask).
Proof.
  intros Hn Hsq Hr Hc. destruct t as [d m]. cbn [values dtype] in *.
  pose proof (mk_cell ZERO m n n Hsq) as Em.
  pose proof (mk_cell false rows_mask n 1 Hr) as Er.
  pose proof (mk_cell false cols_mask 1 n Hc) as Ec.
  replace (shift_zeros (mkTensor d m) rows_mask cols_mask)
    with (shift_zeros (mkTensor d (mk n n (cell ZERO m)))
            (mk n 1 (cell false rows_mask)) (mk 1 n (cell false cols_mask)))
    by (now rewrite <- Em, <- Er, <- Ec).
  rewrite shift_zeros_mk by assumption. now rewrite <- Er, <- Ec.
Qed.

Lemma outline_cells (rows_mask cols_mask : BoolTensor) (i j : nat) :
  negb (cell false rows_mask i 0 || cell false cols_mask 0 j)
  = outline rows_mask cols_mask i j.
Proof. unfold outline, row_marked, col_marked. apply negb_orb. Qed.


(** C8 does not hold as stated: on the reduced matrix [stuck] the cover
    [scratch_matrix] builds has five lines and is reported as not optimal, no
    cell is left uncovered, and [shift_zeros] returns a matrix all the same:
    row 2, the cross cells, raised by the sentinel. *)
Lemma shift_zeros_degenerate_returns :
  let rows_mask := [[false]; [false]; [true]; [false]] in
  let cols_mask := [[true; true; true; true]] in
  scratch_matrix (f16 stuck) = (rows_mask, cols_mask)
  /\ is_optimal_assignment (V := Z) rows_mask cols_mask = Ok false
  /\ forallb (fun i => forallb (fun j => negb (outline rows_mask cols_mask i j))
                         (seq 0 4)) (seq 0 4) = true
  /\ shift_zeros (f16 stuck) rows_mask cols_mask
     = (f16 [[0; 0; 1; 1]; [0; 1; 0; 1];
             [65504; 65504; 65504; 65504]; [1; 1; 1; 0]]%Z,
        rows_mask, cols_mask).
Proof. repeat split. Qed.

(** ** The reduction loop *)

Lemma count_marked_zeros (r c : nat) : count_marked (tf_zeros_bool r c) = 0.
Proof.
  assert (Hrow : count_true (repeat false c) = 0)
    by (induction c as [|c IHc]; [reflexivity | exact IHc]).
  unfold count_marked, tf_zeros_bool. induction r as [|r IH]; [reflexivity|].
  simpl. now rewrite count_true_app, IH, Hrow.
Qed.

Lemma length_zeros_rows (r : nat) : length (tf_zeros_bool r 1) = r.
Proof. apply repeat_length. Qed.

Lemma ncols_zeros_cols (c : nat) : ncols (tf_zeros_bool 1 c) = c.
Proof. apply repeat_length. Qed.

Lemma reduce_loop_unfold {V : Type} {SV : Scalar V} (fuel : nat)
  (s : reduce_state (V := V)) :
  reduce_loop fuel s
  = match reduce_condition s with
    | AssertionError => Some AssertionError
    | Ok false => Some (Ok s)
    | Ok true =>
        match fuel with
        | O => None
        | S fuel' =>
            match reduce_body s with
            | AssertionError => Some AssertionError
            | Ok s' => reduce_loop fuel' s'
            end
        end
    end.
Proof. destruct fuel; reflexivity. Qed.

Lemma reduce_condition_masks {V : Type} {SV : Scalar V}
  (m : Tensor V) (r c : BoolTensor) :
  reduce_condition (m, r, c)
  = match is_optimal_assignment (V := V) r c with
    | AssertionError => AssertionError
    | Ok b => Ok (negb b)
    end.
Proof. reflexivity. Qed.

(** More fuel does not change what the loop returned. *)
Lemma reduce_loop_mono {V : Type} {SV : Scalar V} (fuel k : nat)
  (s : reduce_state (V := V)) (r : result reduce_state) :
  reduce_loop fuel s = Some r -> reduce_loop (fuel + k) s = Some r.
Proof.
  revert s. induction fuel as [|fuel IH]; intros s E;
    rewrite reduce_loop_unfold in E; rewrite reduce_loop_unfold;
    destruct (reduce_condition s) as [[|]|]; try assumption; try discriminate.
  cbn [Nat.add]. destruct (reduce_body s) as [s'|]; [|assumption].
  now apply IH.
Qed.

Lemma reduce_matrix_mono {V : Type} {SV : Scalar V} (fuel k : nat)
  (t : Tensor V) (r : result (Tensor V)) :
  reduce_matrix fuel t = Some r -> reduce_matrix (fuel + k) t = Some r.
Proof.
  unfold reduce_matrix. intros E.
  destruct (reduce_loop fuel (reduce_init t)) as [r'|] eqn:El; [|discriminate].
  now rewrite (reduce_loop_mono fuel k _ r' El).
Qed.

(** ** The scenario of the specification *)

(** C1 does not hold as stated: the column reduction of the row-reduced sample
    is not the matrix the scenario gives (that one is the column reduction
    of the sample itself, as in the docstring of [reduce_cols]). *)
Lemma sample_reduce_cols_differs :
  values (reduce_cols (reduce_rows (f16 sample)))
  <> [[15; 15; 0]; [0; 0; 10]; [10; 10; 5]]%Z
  /\ values (reduce_cols (f16 sample))
     = [[15; 15; 0]; [0; 0; 10]; [10; 10; 5]]%Z.
Proof. split; [discriminate | reflexivity]. Qed.

(** C1 as the code has it: [reduce_rows] turns the sample into
    [[20,15,0],[5,0,10],[10,5,0]], [reduce_cols] turns that into
    [[15,15,0],[0,0,10],[5,5,0]], on which [scratch_matrix] marks row 1 and
    column 2 (two lines, not optimal); [shift_zeros], whose minimum over the
    outline is 5, then gives [[10,10,0],[0,0,15],[0,0,0]], and
    [reduce_matrix] returns that matrix after its second pass. *)
Theorem sample_scenario :
  let reduced := [[15; 15; 0]; [0; 0; 10]; [5; 5; 0]]%Z in
  let rows_mask := [[false]; [true]; [false]] in
  let cols_mask := [[false; false; true]] in
  let final := [[10; 10; 0]; [0; 0; 15]; [0; 0; 0]]%Z in
  values (reduce_rows (f16 sample)) = [[20; 15; 0]; [5; 0; 10]; [10; 5; 0]]%Z
  /\ reduce_cols (reduce_rows (f16 sample)) = f16 reduced
  /\ scratch_matrix (f16 reduced) = (rows_mask, cols_mask)
  /\ is_optimal_assignment (V := Z) rows_mask cols_mask = Ok false
  /\ shift_delta 3 (cell 0%Z reduced) (cell false rows_mask)
       (cell false cols_mask) = 5%Z
  /\ shift_zeros (f16 reduced) rows_mask cols_mask
     = (f16 final, rows_mask, cols_mask)
  /\ is_optimal_assignment (V := Z)
       (fst (scratch_matrix (f16 final))) (snd (scratch_matrix (f16 final)))
     = Ok true
  /\ reduce_matrix 1 (f16 sample) = None
  /\ forall k, reduce_matrix (2 + k) (f16 sample) = Some (Ok (f16 final)).
Proof.
  repeat split. intros k. now apply reduce_matrix_mono.
Qed.

(** ** A matrix the loop never leaves *)

(** The matrix after [shift_zeros] on [stuck]: row 2 raised by the sentinel. *)
Lemma stuck_body_init :
  reduce_body (reduce_init (f16 stuck))
  = Ok (f16 [[0; 0; 1; 1]; [0; 1; 0; 1];
             [65504; 65504; 65504; 65504]; [1; 1; 1; 0]]%Z,
        [[false]; [false]; [true]; [false]], [[true; true; true; true]]).
Proof. reflexivity. Qed.

Lemma stuck_body_again :
  let s := (f16 [[0; 0; 1; 1]; [0; 1; 0; 1];
                 [65504; 65504; 65504; 65504]; [1; 1; 1; 0]]%Z,
            [[false]; [false]; [true]; [false]], [[true; true; true; true]]) in
  reduce_condition s = Ok true /\ reduce_body s = Ok s.
Proof. split; reflexivity. Qed.

Lemma stuck_loop_runs (fuel : nat) :
  reduce_loop fuel
    (f16 [[0; 0; 1; 1]; [0; 1; 0; 1];
          [65504; 65504; 65504; 65504]; [1; 1; 1; 0]]%Z,
     [[false]; [false]; [true]; [false]], [[true; true; true; true]])
  = None.
Proof.
  destruct stuck_body_again as [Ec Eb].
  induction fuel as [|fuel IH]; rewrite reduce_loop_unfold, Ec;
    [reflexivity|]. now rewrite Eb.
Qed.

(** C2, the code's defect: [stuck] is a 4 by 4 matrix, already reduced, whose
    zeros four lines cover (rows 0, 1 and 2 and column 3, a cover that
    passes the optimality test); the greedy cover of [scratch_matrix] takes
    five, [shift_zeros] finds no outline cell and adds the sentinel to row 2,
    the next row reduction takes it off again, and [reduce_matrix] is still
    running whatever fuel it is given. *)
Theorem reduce_matrix_stuck :
  square (values (f16 stuck)) 4
  /\ reduce_cols (reduce_rows (f16 stuck)) = f16 stuck
  /\ is_optimal_assignment (V := Z)
       [[true]; [true]; [true]; [false]] [[false; false; false; true]] = Ok true
  /\ scratch_matrix (f16 stuck)
     = ([[false]; [false]; [true]; [false]], [[true; true; true; true]])
  /\ forall fuel, reduce_matrix fuel (f16 stuck) = None.
Proof.
  split; [split; [reflexivity | repeat constructor]|].
  split; [reflexivity|]. split; [reflexivity|]. split; [reflexivity|].
  intros fuel. unfold reduce_matrix. rewrite reduce_loop_unfold.
  change (reduce_condition (reduce_init (f16 stuck))) with (Ok true : result bool).
  cbv iota. destruct fuel as [|fuel]; [reflexivity|].
  rewrite stuck_body_init, stuck_loop_runs. reflexivity.
Qed.

(** ** Precondition violations *)

Lemma reduce_matrix_not_square {V : Type} {SV : Scalar V} (fuel : nat)
  (t : Tensor V) :
  length (values t) <> ncols (values t) ->
  reduce_matrix fuel t = Some AssertionError.
Proof.
  intros Hne. unfold reduce_matrix, reduce_init.
  rewrite reduce_loop_unfold, reduce_condition_masks.
  rewrite is_optimal_assignment_mismatch; [reflexivity|].
  now rewrite length_zeros_rows, ncols_zeros_cols.
Qed.

(** C9 does not hold as stated: a matrix holding a non-finite value is not
    signalled.  On [[+inf]] the loop condition is evaluated without error
    and asks for a pass; the pass completes without error and hands on
    [[NaN]]; [reduce_rows] alone returns [[NaN]] as well. *)
Lemma non_finite_not_signalled :
  let t := mkTensor Float16 [[PInf]] in
  reduce_matrix 0 t = None
  /\ reduce_body (reduce_init t)
     = Ok (mkTensor Float16 [[NaN]], [[false]], [[false]])
  /\ reduce_rows t = mkTensor Float16 [[NaN]]
  /\ reduce_matrix 100 t = None.
Proof. repeat split. Qed.

(** C9 as the code has it: the one check of the module is the assertion of
    [is_optimal_assignment].  It fails a row mask and a column mask of
    different lengths at once, and through it [reduce_matrix] fails a
    matrix that is not square when it first evaluates the loop condition,
    before any pass of the body, whatever the fuel. *)
Theorem precondition_violations {V : Type} {SV : Scalar V} :
  (forall rows_mask cols_mask : BoolTensor,
      length rows_mask <> ncols cols_mask ->
      is_optimal_assignment (V := V) rows_mask cols_mask = AssertionError)
  /\ (forall (fuel : nat) (t : Tensor V),
        length (values t) <> ncols (values t) ->
        reduce_matrix fuel t = Some AssertionError).
Proof.
  split.
  - intros r c. apply is_optimal_assignment_mismatch.
  - intros fuel t. apply reduce_matrix_not_square.
Qed.

Lemma precondition_violations_witness :
  (length [[false]; [true]] <> ncols [[true; false; true]]
   /\ is_optimal_assignment (V := Z) [[false]; [true]] [[true; false; true]]
      = AssertionError)
  /\ (length (values (f16 [[1; 2; 3]; [4; 5; 6]]%Z))
      <> ncols (values (f16 [[1; 2; 3]; [4; 5; 6]]%Z))
      /\ reduce_matrix 0 (f16 [[1; 2; 3]; [4; 5; 6]]%Z) = Some AssertionError).
Proof.
  assert (H1 : length [[false]; [true]] <> ncols [[true; false; true]])
    by (simpl; lia).
  assert (H2 : length (values (f16 [[1; 2; 3]; [4; 5; 6]]%Z))
               <> ncols (values (f16 [[1; 2; 3]; [4; 5; 6]]%Z)))
    by (simpl; lia).
  split; (split; [assumption|]).
  - apply (proj1 (precondition_violations (V := Z))). exact H1.
  - apply (proj2 (precondition_violations (V := Z))). exact H2.
Defined.

(** ** Beyond the claims: the reducers and a constant added to a line *)

Lemma Zminimum_map_add (l : list Z) (k : Z) :
  l <> [] -> Zminimum (map (fun x => (x + k)%Z) l) = (Zminimum l + k)%Z.
Proof.
  intros Hne. apply Zminimum_unique.
  - apply in_map_iff. exists (Zminimum l). split; [reflexivity|].
    now apply Zminimum_in.
  - intros x Hx. apply in_map_iff in Hx. destruct Hx as (y & <- & Hy).
    pose proof (Zminimum_le l y Hy). lia.
Qed.

Lemma values_reduce_rows_cells (t : Tensor Z) (r c : nat) :
  0 < r -> 0 < c -> shape (values t) r c ->
  values (reduce_rows t)
  = mk r c (row_reduced_cell c (cell 0%Z (values t))).
Proof.
  intros Hr Hc Hs. destruct t as [d m]. cbn [values] in *.
  rewrite (mk_cell 0%Z m r c Hs) at 1. now apply values_reduce_rows_Z.
Qed.

Lemma values_reduce_cols_cells (t : Tensor Z) (r c : nat) :
  0 < r -> 0 < c -> shape (values t) r c ->
  values (reduce_cols t)
  = mk r c (col_reduced_cell r (cell 0%Z (values t))).
Proof.
  intros Hr Hc Hs. destruct t as [d m]. cbn [values] in *.
  rewrite (mk_cell 0%Z m r c Hs) at 1. now apply values_reduce_cols_Z.
Qed.

(** X3: the reducers do not see a constant added to a line: two matrices
    of the same shape whose rows differ by a constant each have the same
    row reduction, and two matrices whose columns differ by a constant each
    have the same column reduction. *)
Theorem reducers_shift_invariant (t t' : Tensor Z) (r c : nat) (k : nat -> Z) :
  0 < r -> 0 < c -> shape (values t) r c -> shape (values t') r c ->
  ((forall i j, i < r -> j < c ->
      cell 0%Z (values t') i j = (cell 0%Z (values t) i j + k i)%Z) ->
   values (reduce_rows t') = values (reduce_rows t))
  /\ ((forall i j, i < r -> j < c ->
         cell 0%Z (values t') i j = (cell 0%Z (values t) i j + k j)%Z) ->
      values (reduce_cols t') = values (reduce_cols t)).
Proof.
  intros Hr Hc Hs Hs'. split; intros E.
  - rewrite (values_reduce_rows_cells t r c), (values_reduce_rows_cells t' r c)
      by assumption.
    apply mk_ext. intros i j Hi Hj. unfold row_reduced_cell.
    rewrite (tabulate_ext c (cell 0%Z (values t') i)
               (fun j' => (cell 0%Z (values t) i j' + k i)%Z))
      by (intros j' Hj'; now apply E).
    rewrite <- (map_tabulate (fun x => (x + k i)%Z)).
    rewrite Zminimum_map_add by now apply tabulate_not_nil.
    rewrite E by assumption. lia.
  - rewrite (values_reduce_cols_cells t r c), (values_reduce_cols_cells t' r c)
      by assumption.
    apply mk_ext. intros i j Hi Hj. unfold col_reduced_cell.
    rewrite (tabulate_ext r (fun i' => cell 0%Z (values t') i' j)
               (fun i' => (cell 0%Z (values t) i' j + k j)%Z))
      by (intros i' Hi'; now apply E).
    rewrite <- (map_tabulate (fun x => (x + k j)%Z)).
    rewrite Zminimum_map_add by now apply tabulate_not_nil.
    rewrite E by assumption. lia.
Qed.

Lemma reducers_shift_invariant_witness :
  values (reduce_rows (f16 [[14; 12; 17]; [2; 6; 3]]%Z))
  = values (reduce_rows (f16 [[4; 2; 7]; [5; 9; 6]]%Z)).
Proof.
  assert (Hs : forall m, m = [[4; 2; 7]; [5; 9; 6]]%Z
                         \/ m = [[14; 12; 17]; [2; 6; 3]]%Z ->
                         shape (values (f16 m)) 2 3)
    by (intros m [->| ->]; (split; [reflexivity | repeat constructor])).
  apply (reducers_shift_invariant (f16 [[4; 2; 7]; [5; 9; 6]]%Z)
           (f16 [[14; 12; 17]; [2; 6; 3]]%Z) 2 3
           (fun i => if i =? 0 then 10%Z else (-3)%Z));
    auto; try lia.
  intros i j Hi Hj.
  destruct i as [|[|i]]; destruct j as [|[|[|j]]]; try lia; reflexivity.
Defined.

(** ** Beyond the claims: counting marked lines *)

Lemma concat_map_singleton {A B : Type} (f : A -> B) (l : list A) :
  concat (map (fun x => [f x]) l) = map f l.
Proof. induction l as [|x l IH]; simpl; [reflexivity | now rewrite IH]. Qed.

(** The marked lines of a row mask of shape [(n, 1)], counted one by one. *)
Lemma count_marked_rows (rows_mask : BoolTensor) (n : nat) :
  shape rows_mask n 1 ->
  count_marked rows_mask = count_true (map (row_marked rows_mask) (seq 0 n)).
Proof.
  intros Hr. unfold count_marked.
  rewrite (mk_cell false rows_mask n 1 Hr) at 1.
  change (mk n 1 (cell false rows_mask))
    with (map (fun i => [row_marked rows_mask i]) (seq 0 n)).
  now rewrite concat_map_singleton.
Qed.

(** The marked lines of a column mask of shape [(1, n)]. *)
Lemma count_marked_cols (cols_mask : BoolTensor) (n : nat) :
  shape cols_mask 1 n ->
  count_marked cols_mask = count_true (map (col_marked cols_mask) (seq 0 n)).
Proof.
  intros Hc. unfold count_marked.
  rewrite (mk_cell false cols_mask 1 n Hc) at 1.
  change (mk 1 n (cell false cols_mask))
    with [map (col_marked cols_mask) (seq 0 n)].
  simpl concat. now rewrite app_nil_r.
Qed.

(** ** Beyond the claims: the zeros the zero shifter makes and keeps *)

(** X5: on a square matrix of non-negative values within the float16 range
    and masks leaving a cell uncovered, [shift_zeros] makes an uncovered
    cell zero and keeps every zero that is not on a crossing of a marked row
    and a marked column. *)
Theorem shift_zeros_new_zero (t : Tensor Z) (rows_mask cols_mask : BoolTensor)
  (n : nat) :
  square (values t) n -> shape rows_mask n 1 -> shape cols_mask 1 n ->
  (forall i j, i < n -> j < n ->
               (0 <= cell 0%Z (values t) i j <= F16_MAX)%Z) ->
  (exists i j, i < n /\ j < n /\ outline rows_mask cols_mask i j = true) ->
  exists t' : Tensor Z,
    shift_zeros t rows_mask cols_mask = (t', rows_mask, cols_mask)
    /\ (exists i j, i < n /\ j < n /\ outline rows_mask cols_mask i j = true
                    /\ cell 0%Z (values t') i j = 0%Z)
    /\ (forall i j, i < n -> j < n ->
          cell 0%Z (values t) i j = 0%Z ->
          cross rows_mask cols_mask i j = false ->
          cell 0%Z (values t') i j = 0%Z).
Proof.
  intros Hsq Hr Hc Hrange Hex.
  assert (Hn : 0 < n) by (destruct Hex as (i & _ & Hi & _); lia).
  set (g := cell 0%Z (values t)).
  set (rf := cell false rows_mask). set (cf := cell false cols_mask).
  destruct (shift_delta_outline n g rf cf) as [Hatt Hmin].
  { intros i j Hi Hj. now apply Hrange. }
  { destruct Hex as (i & j & Hi & Hj & Ho). exists i, j.
    unfold rf, cf. now rewrite outline_cells. }
  assert (Hd0 : (0 <= shift_delta n g rf cf)%Z).
  { destruct Hatt as (i' & j' & Hi' & Hj' & _ & <-).
    apply (Hrange i' j' Hi' Hj'). }
  eexists. split; [exact (shift_zeros_cells t rows_mask cols_mask n Hn Hsq Hr Hc)|].
  cbn [values]. change (@ZERO Z Z_scalar) with 0%Z. fold g rf cf. split.
  - destruct Hatt as (i & j & Hi & Hj & Ho & E). exists i, j.
    split; [assumption|]. split; [assumption|]. split.
    + unfold rf, cf in Ho. now rewrite outline_cells in Ho.
    + rewrite cell_mk, shifted_cell_Z, Ho by assumption.
      unfold g, rf, cf in *. lia.
  - intros i j Hi Hj Hz Hx. rewrite cell_mk, shifted_cell_Z by assumption.
    change (rf i 0 && cf 0 j) with (cross rows_mask cols_mask i j).
    rewrite Hx.
    destruct (negb (rf i 0 || cf 0 j)) eqn:Ho; [|exact Hz].
    specialize (Hmin i j Hi Hj Ho). unfold g, rf, cf in *. lia.
Qed.

Lemma shift_zeros_new_zero_witness :
  let t := f16 [[15; 15; 0]; [0; 0; 10]; [5; 5; 0]]%Z in
  let rows_mask := [[false]; [true]; [false]] in
  let cols_mask := [[false; false; true]] in
  (square (values t) 3 /\ shape rows_mask 3 1 /\ shape cols_mask 1 3)
  /\ exists t' : Tensor Z,
       shift_zeros t rows_mask cols_mask = (t', rows_mask, cols_mask)
       /\ (exists i j, i < 3 /\ j < 3 /\ outline rows_mask cols_mask i j = true
                       /\ cell 0%Z (values t') i j = 0%Z).
Proof.
  intros t rows_mask cols_mask.
  assert (Hsq : square (values t) 3) by (split; [reflexivity | repeat constructor]).
  assert (Hr : shape rows_mask 3 1) by (split; [reflexivity | repeat constructor]).
  assert (Hc : shape cols_mask 1 3) by (split; [reflexivity | repeat constructor]).
  assert (Hrange : forall i j, i < 3 -> j < 3 ->
                               (0 <= cell 0%Z (values t) i j <= F16_MAX)%Z).
  { intros i j Hi Hj.
    destruct i as [|[|[|i]]]; destruct j as [|[|[|j]]]; try lia;
      cbn; unfold F16_MAX; lia. }
  assert (Hex : exists i j, i < 3 /\ j < 3
                            /\ outline rows_mask cols_mask i j = true).
  { exists 0, 0. repeat split; lia. }
  split; [auto|].
  destruct (shift_zeros_new_zero t rows_mask cols_mask 3 Hsq Hr Hc Hrange Hex)
    as (t' & E & Hz & _).
  exists t'. auto.
Defined.

(** ** Beyond the claims: when the loop fails, and the smallest inputs *)


Lemma is_optimal_assignment_ok (rows_mask cols_mask : BoolTensor) :
  length rows_mask = ncols cols_mask ->
  exists b, is_optimal_assignment (V := Z) rows_mask cols_mask = Ok b.
Proof. intros E. eexists. now apply is_optimal_assignment_count. Qed.

(** On a square matrix a pass of the body does not fail, and hands on a
    square matrix with masks of matching lengths. *)
Lemma reduce_body_square (n : nat) (m : Tensor Z) (r c : BoolTensor) :
  0 < n -> square (values m) n ->
  exists m' r' c',
    reduce_body (m, r, c) = Ok (m', r', c')
    /\ square (values m') n /\ length r' = ncols c'.
Proof.
  intros Hn Hsq. unfold reduce_body.
  pose proof (square_reduce m n Hsq) as Hsq'.
  set (new_matrix := reduce_cols (reduce_rows m)) in *.
  destruct (scratch_matrix new_matrix) as [r' c'] eqn:Es.
  destruct (scratch_matrix_cover new_matrix n r' c' Hn Hsq' Es) as (Hr & Hc & _).
  assert (El : length r' = ncols c').
  { rewrite (shape_ncols c' 1 n Hc) by lia. now destruct Hr. }
  destruct (is_optimal_assignment_ok r' c' El) as ([|] & ->).
  - now exists new_matrix, r', c'.
  - rewrite (shift_zeros_cells new_matrix r' c' n Hn Hsq' Hr Hc).
    eexists _, r', c'. split; [reflexivity|]. split; [apply shape_mk | exact El].
Qed.

Lemma reduce_loop_square (n fuel : nat) (m : Tensor Z) (r c : BoolTensor) :
  0 < n -> square (values m) n -> length r = ncols c ->
  reduce_loop fuel (m, r, c) <> Some AssertionError.
Proof.
  intros Hn. revert m r c. induction fuel as [|fuel IH]; intros m r c Hsq El;
    rewrite reduce_loop_unfold, reduce_condition_masks;
    destruct (is_optimal_assignment_ok r c El) as ([|] & ->); cbn [negb];
    try discriminate.
  destruct (reduce_body_square n m r c Hn Hsq) as (m' & r' & c' & -> & Hsq' & El').
  now apply IH.
Qed.

(** X7: on a matrix of [r] rows and [c] columns with at least one row,
    [reduce_matrix] ends in the assertion error exactly when the matrix is
    not square: a square input never fails, whatever the fuel. *)
Theorem reduce_matrix_fails_iff_not_square (fuel r c : nat) (t : Tensor Z) :
  0 < r -> shape (values t) r c ->
  (reduce_matrix fuel t = Some AssertionError <-> r <> c).
Proof.
  intros Hr Hs. pose proof (shape_ncols (values t) r c Hs Hr) as Hc.
  pose proof (proj1 Hs) as Hl. split.
  - intros E Heq. rewrite <- Heq in Hs, Hc. revert E.
    unfold reduce_matrix, reduce_init.
    assert (Hno : reduce_loop fuel
                    (t, tf_zeros_bool (length (values t)) 1,
                     tf_zeros_bool 1 (ncols (values t)))
                  <> Some AssertionError).
    { apply (reduce_loop_square r); [assumption | exact Hs |].
      now rewrite length_zeros_rows, ncols_zeros_cols, Hl, Hc. }
    destruct (reduce_loop fuel _) as [[[[m' r'] c']|]|]; try discriminate.
    intros _. now apply Hno.
  - intros Hne. apply reduce_matrix_not_square. now rewrite Hl, Hc.
Qed.

Lemma reduce_matrix_fails_iff_not_square_witness :
  (0 < 2 /\ shape (values (f16 [[1; 2; 3]; [4; 5; 6]]%Z)) 2 3)
  /\ reduce_matrix 7 (f16 [[1; 2; 3]; [4; 5; 6]]%Z) = Some AssertionError.
Proof.
  assert (Hs : shape (values (f16 [[1; 2; 3]; [4; 5; 6]]%Z)) 2 3)
    by (split; [reflexivity | repeat constructor]).
  split; [split; [lia | exact Hs]|].
  apply (reduce_matrix_fails_iff_not_square 7 2 3 _ (Nat.lt_0_succ 1) Hs). lia.
Defined.



(** ** Beyond the claims: the lines the cover marks *)

Lemma count_true_or_one (f : nat -> bool) (k : nat) (l : list nat) :
  count_true (map (fun i => f i || (i =? k)) l)
  <= count_true (map f l) + count_occ Nat.eq_dec l k.
Proof.
  induction l as [|x l IH]; [apply Nat.le_refl|].
  cbn [map count_true count_occ].
  destruct (Nat.eq_dec x k) as [->|Hne].
  - rewrite Nat.eqb_refl, orb_true_r. destruct (f k); lia.
  - apply Nat.eqb_neq in Hne. rewrite Hne, orb_false_r. lia.
Qed.

(** Marking one more line raises the number of marked lines by one at most. *)
Lemma count_true_mark (f : nat -> bool) (k n : nat) :
  count_true (tabulate n (fun i => f i || (i =? k)))
  <= count_true (tabulate n f) + 1.
Proof.
  unfold tabulate. pose proof (count_true_or_one f k (seq 0 n)) as H.
  pose proof (proj1 (NoDup_count_occ Nat.eq_dec (seq 0 n)) (seq_NoDup n 0) k).
  lia.
Qed.

Lemma scratch_body_marks (n : nat) (z0 : nat -> nat -> bool) (s : scratch_state) :
  0 < n -> scratch_marks_inv n z0 s -> scratch_condition s = true ->
  scratch_marks_inv n z0 (scratch_body s).
Proof.
  intros Hn (zf & rf & cf & -> & Hsub & Hrow & Hcol & Hcount) Hcond.
  unfold scratch_condition in Hcond. apply tf_reduce_any_mk in Hcond.
  unfold scratch_body.
  destruct (Nat.ltb_spec (reduce_max (count_zeros_in_cols (mk n n zf)))
              (reduce_max (count_zeros_in_rows (mk n n zf)))) as [Hlt|Hge].
  - rewrite scratch_row_mk by assumption.
    destruct (selected_row_has_zero n zf Hn Hlt) as (Hk & j & Hj & Ej).
    set (k := argmax (count_zeros_in_rows (mk n n zf))) in *.
    exists (fun i j' => zf i j' && negb (i =? k)),
      (fun i => rf i || (i =? k)), cf.
    split; [reflexivity|]. split; [|split; [|split]].
    + intros i j' Hi Hj' E. apply andb_true_iff in E. apply Hsub; tauto.
    + intros i Hi E. apply orb_true_iff in E. destruct E as [E|E].
      * now apply Hrow.
      * apply Nat.eqb_eq in E. subst i. exists j. split; [assumption|].
        now apply Hsub.
    + exact Hcol.
    + pose proof (count_true_mark rf k n) as Hmark.
      assert (Hdec : count_cells (mk n n (fun i j' => zf i j' && negb (i =? k)))
                     < count_cells (mk n n zf)).
      { apply count_cells_lt.
        - intros i j' _ _ E. now apply andb_true_iff in E.
        - exists k, j. rewrite Ej, Nat.eqb_refl. auto. }
      lia.
  - rewrite scratch_col_mk by assumption.
    destruct (selected_col_has_zero n zf Hn Hcond) as (Hk & i & Hi & Ei).
    set (k := argmax (count_zeros_in_cols (mk n n zf))) in *.
    exists (fun i' j => zf i' j && negb (j =? k)), rf,
      (fun j => cf j || (j =? k)).
    split; [reflexivity|]. split; [|split; [|split]].
    + intros i' j Hi' Hj E. apply andb_true_iff in E. apply Hsub; tauto.
    + exact Hrow.
    + intros j Hj E. apply orb_true_iff in E. destruct E as [E|E].
      * now apply Hcol.
      * apply Nat.eqb_eq in E. subst j. exists i. split; [assumption|].
        now apply Hsub.
    + pose proof (count_true_mark cf k n) as Hmark.
      assert (Hdec : count_cells (mk n n (fun i' j => zf i' j && negb (j =? k)))
                     < count_cells (mk n n zf)).
      { apply count_cells_lt.
        - intros i' j _ _ E. now apply andb_true_iff in E.
        - exists i, k. rewrite Ei, Nat.eqb_refl. auto. }
      lia.
Qed.

Lemma scratch_loop_marks (n : nat) (z0 : nat -> nat -> bool) (bound : nat)
  (s : scratch_state) :
  0 < n -> scratch_marks_inv n z0 s ->
  scratch_marks_inv n z0 (loop_upto bound scratch_condition scratch_body s).
Proof.
  intros Hn. revert s. induction bound as [|bound IH]; intros s Hinv; simpl;
    [assumption|].
  destruct (scratch_condition s) eqn:Hc; [|assumption].
  apply IH. now apply scratch_body_marks.
Qed.

Lemma count_true_false (n : nat) : count_true (tabulate n (fun _ => false)) = 0.
Proof.
  unfold tabulate. induction (seq 0 n) as [|x l IH]; [reflexivity | exact IH].
Qed.

(** X9: the cover of [scratch_matrix] on a square matrix marks no line in
    vain: every marked row and every marked column holds a zero of the
    matrix, and the marked lines are no more than the zero cells.  A matrix
    without a zero gets no line at all. *)
Theorem scratch_matrix_marks_zero_lines (t : Tensor Z) (n : nat)
  (rows_mask cols_mask : BoolTensor) :
  square (values t) n -> scratch_matrix t = (rows_mask, cols_mask) ->
  (forall i, i < n -> row_marked rows_mask i = true ->
             exists j, j < n /\ cell 0%Z (values t) i j = 0%Z)
  /\ (forall j, j < n -> col_marked cols_mask j = true ->
                exists i, i < n /\ cell 0%Z (values t) i j = 0%Z)
  /\ count_marked rows_mask + count_marked cols_mask
     <= count_cells (tf_equal t 0%Z).
Proof.
  intros Hsq E. destruct n as [|n'].
  - destruct t as [d m]. cbn [values] in Hsq. apply shape_zero_nil in Hsq.
    subst m. cbv in E. inversion E; subst.
    split; [intros; lia|]. split; [intros; lia | apply Nat.le_refl].
  - assert (Hn : 0 < S n') by lia. set (n := S n') in *.
    set (z0 := fun i j => (cell 0%Z (values t) i j =? 0)%Z).
    assert (Ez0 : tf_equal t 0%Z = mk n n z0).
    { unfold tf_equal. rewrite (mk_cell 0%Z (values t) n n Hsq) at 1.
      apply map_map_mk. }
    assert (Hinit : scratch_marks_inv n z0 (scratch_init t)).
    { destruct t as [d m]. cbn [values] in *.
      rewrite (mk_cell 0%Z m n n Hsq) at 1. rewrite scratch_init_mk by assumption.
      exists z0, (fun _ => false), (fun _ => false).
      split; [reflexivity|]. split; [auto|].
      split; [discriminate|]. split; [discriminate|].
      rewrite !count_true_false. apply Nat.le_refl. }
    pose proof (scratch_loop_marks n z0 (count_cells (tf_equal t ZERO)) _
                  Hn Hinit) as (zf & rf & cf & Es & _ & Hrow & Hcol & Hcount).
    unfold scratch_matrix, scratch_final in E. rewrite Es in E.
    inversion E; subst rows_mask cols_mask; clear E.
    split; [|split].
    + intros i Hi Hm. unfold row_marked in Hm. rewrite cell_mk in Hm by lia.
      destruct (Hrow i Hi Hm) as (j & Hj & Ez). exists j.
      split; [assumption|]. now apply Z.eqb_eq.
    + intros j Hj Hm. unfold col_marked in Hm. rewrite cell_mk in Hm by lia.
      destruct (Hcol j Hj Hm) as (i & Hi & Ez). exists i.
      split; [assumption|]. now apply Z.eqb_eq.
    + rewrite Ez0.
      rewrite (count_marked_rows _ n (shape_mk n 1 _)).
      rewrite (count_marked_cols _ n (shape_mk 1 n _)).
      assert (Er : map (row_marked (mk n 1 (fun i _ => rf i))) (seq 0 n)
                   = tabulate n rf).
      { apply map_ext_in. intros i Hi. apply in_seq in Hi.
        unfold row_marked. now rewrite cell_mk by lia. }
      assert (Ec : map (col_marked (mk 1 n (fun _ j => cf j))) (seq 0 n)
                   = tabulate n cf).
      { apply map_ext_in. intros j Hj. apply in_seq in Hj.
        unfold col_marked. now rewrite cell_mk by lia. }
      rewrite Er, Ec. lia.
Qed.

Lemma scratch_matrix_marks_zero_lines_witness :
  let t := f16 [[15; 15; 0]; [0; 0; 10]; [5; 5; 0]]%Z in
  let rows_mask := [[false]; [true]; [false]] in
  let cols_mask := [[false; false; true]] in
  (square (values t) 3 /\ scratch_matrix t = (rows_mask, cols_mask))
  /\ count_marked rows_mask + count_marked cols_mask
     <= count_cells (tf_equal t 0%Z).
Proof.
  intros t rows_mask cols_mask.
  assert (Hsq : square (values t) 3) by (split; [reflexivity | repeat constructor]).
  assert (E : scratch_matrix t = (rows_mask, cols_mask)) by reflexivity.
  split; [split; [exact Hsq | exact E]|].
  apply (scratch_matrix_marks_zero_lines t 3 rows_mask cols_mask Hsq E).
Defined.

(** ** float16: rounding *)

Section Rounding.

Local Open Scope Z_scope.

Lemma HFin_inj (a b : Z) : HFin a = HFin b -> a = b.
Proof. congruence. Qed.

Lemma rne_bounds (a d : Z) :
  0 <= a -> 0 < d -> a / d <= round_nearest_even a d <= a / d + 1.
Proof.
  intros Ha Hd. unfold round_nearest_even.
  destruct (2 * (a mod d) <? d); [lia|].
  destruct (d <? 2 * (a mod d)); [lia|].
  destruct (Z.even (a / d)); lia.
Qed.

Lemma rne_exact (a d : Z) :
  0 < d -> a mod d = 0 -> round_nearest_even a d = a / d.
Proof.
  intros Hd E. unfold round_nearest_even. rewrite E.
  destruct (Z.ltb_spec (2 * 0) d); [reflexivity | lia].
Qed.

Lemma rne_nonneg (a d : Z) : 0 <= a -> 0 < d -> 0 <= round_nearest_even a d.
Proof.
  intros Ha Hd. pose proof (rne_bounds a d Ha Hd).
  pose proof (Z.div_pos a d Ha Hd). lia.
Qed.

Lemma half_exponent_nonneg (a : Z) : 0 <= half_exponent a.
Proof. unfold half_exponent. lia. Qed.

Lemma round16_zero : round16 0 = HFin 0.
Proof. reflexivity. Qed.

Lemma round16_opp (w : Z) : round16 (- w) = half_neg (round16 w).
Proof.
  destruct w as [|p|p]; [reflexivity | |];
    unfold round16; rewrite Z.abs_opp;
    match goal with |- context [if ?c then _ else _] => destruct c end;
    cbn [half_neg]; try reflexivity; f_equal; rewrite Z.sgn_opp; lia.
Qed.

(** Rounding a non-negative value gives a non-negative float16 or +inf. *)
Lemma round16_nonneg (w : Z) :
  0 <= w ->
  round16 w = HPInf \/ exists k, round16 w = HFin k /\ 0 <= k <= HALF_MAX.
Proof.
  intros Hw. unfold round16. rewrite (Z.abs_eq w Hw).
  set (s := half_exponent w).
  set (k := round_nearest_even w (2 ^ (24 + s)) * 2 ^ s).
  assert (Hs : 0 <= s) by apply half_exponent_nonneg.
  assert (Hk : 0 <= k).
  { unfold k. apply Z.mul_nonneg_nonneg; [|apply Z.pow_nonneg; lia].
    apply rne_nonneg; [assumption|]. apply Z.pow_pos_nonneg; lia. }
  destruct (Z.ltb_spec HALF_MAX k) as [Hov|Hin].
  - destruct (Z.ltb_spec 0 w) as [_|H0]; [now left|].
    exfalso. assert (w = 0) by lia. subst w. vm_compute in Hov. discriminate.
  - right. exists (Z.sgn w * k). split; [reflexivity|].
    destruct (Z.eq_dec w 0) as [->|Hne].
    + simpl. unfold HALF_MAX, F16_MAX. lia.
    + rewrite Z.sgn_pos by lia. lia.
Qed.

Lemma representable_exponent (k : Z) :
  0 < k -> representable k ->
  exists c, k = c * 2 ^ half_exponent (k * 2 ^ 24).
Proof.
  intros Hk (m & s & Hs & Hm & E).
  assert (Hm0 : 0 < m) by nia.
  unfold half_exponent. rewrite Z.log2_mul_pow2 by lia.
  assert (El : Z.log2 k = s + Z.log2 m)
    by (rewrite E; apply Z.log2_mul_pow2; lia).
  rewrite El.
  destruct (Z.eq_dec m (2 ^ 11)) as [->|Hne].
  - rewrite Z.log2_pow2 by lia.
    replace (Z.max 0 (24 + (s + 11) - 34)) with (s + 1) by lia.
    exists (2 ^ 10). rewrite E, Z.pow_add_r by lia.
    change (2 ^ 11) with (2 ^ 10 * 2 ^ 1). ring.
  - assert (Hl : Z.log2 m < 11) by (apply Z.log2_lt_pow2; lia).
    pose proof (Z.log2_nonneg m).
    set (e := Z.max 0 (24 + (s + Z.log2 m) - 34)).
    assert (He : 0 <= e <= s) by (unfold e; lia).
    exists (m * 2 ^ (s - e)). rewrite E, <- Z.mul_assoc, <- Z.pow_add_r by lia.
    f_equal. f_equal. lia.
Qed.

(** Rounding leaves a float16 value as it is. *)
Lemma round16_representable (k : Z) :
  0 <= k <= HALF_MAX -> representable k -> round16 (k * 2 ^ 24) = HFin k.
Proof.
  intros Hk Hrep. destruct (Z.eq_dec k 0) as [->|Hne]; [reflexivity|].
  destruct (representable_exponent k ltac:(lia) Hrep) as (c & Ec).
  unfold round16. rewrite Z.abs_eq by lia.
  set (s := half_exponent (k * 2 ^ 24)) in *.
  assert (Hs : 0 <= s) by apply half_exponent_nonneg.
  assert (Hp : 0 < 2 ^ s) by (apply Z.pow_pos_nonneg; lia).
  assert (Hd : 2 ^ (24 + s) = 2 ^ 24 * 2 ^ s) by (apply Z.pow_add_r; lia).
  assert (Ea : k * 2 ^ 24 = c * 2 ^ (24 + s)) by (rewrite Hd, Ec at 1; ring).
  rewrite rne_exact.
  - rewrite Ea, Z.div_mul by lia. rewrite <- Ec.
    destruct (Z.ltb_spec HALF_MAX k); [lia|].
    rewrite Z.sgn_pos by lia. f_equal. lia.
  - apply Z.pow_pos_nonneg; lia.
  - rewrite Ea. apply Z.mod_mul. lia.
Qed.

(** The significand rounding keeps has at most eleven bits, or it is 2^11. *)
Lemma rne_significand (a : Z) :
  0 < a ->
  round_nearest_even a (2 ^ (24 + half_exponent a)) <= 2 ^ 11.
Proof.
  intros Ha. set (s := half_exponent a).
  assert (Hs : 0 <= s) by apply half_exponent_nonneg.
  assert (Hd : 0 < 2 ^ (24 + s)) by (apply Z.pow_pos_nonneg; lia).
  pose proof (rne_bounds a _ (Z.lt_le_incl _ _ Ha) Hd) as [_ Hub].
  assert (Hq : a / 2 ^ (24 + s) < 2 ^ 11); [|lia].
  apply Z.div_lt_upper_bound; [assumption|].
  rewrite <- Z.pow_add_r by lia.
  destruct (Z.log2_spec a Ha) as [_ Hlt].
  eapply Z.lt_le_trans; [exact Hlt|].
  apply Z.pow_le_mono_r; [lia|]. unfold s, half_exponent. lia.
Qed.

Lemma round16_output_representable (w k : Z) :
  0 <= w -> round16 w = HFin k -> 0 <= k <= HALF_MAX /\ representable k.
Proof.
  intros Hw E. destruct (Z.eq_dec w 0) as [->|Hne].
  - rewrite round16_zero in E. inversion E; subst k. split.
    + unfold HALF_MAX, F16_MAX. lia.
    + exists 0, 0. lia.
  - destruct (round16_nonneg w Hw) as [Hinf|(k' & E' & Hk')]; [congruence|].
    assert (k' = k) by congruence. subst k'. split; [assumption|].
    revert E. unfold round16. rewrite Z.abs_eq by lia.
    set (s := half_exponent w).
    destruct (_ <? _); [destruct (0 <? w); discriminate|].
    intros E. apply HFin_inj in E. rewrite Z.sgn_pos in E by lia.
    exists (round_nearest_even w (2 ^ (24 + s))), s.
    split; [apply half_exponent_nonneg|]. split; [|lia]. split.
    + apply rne_nonneg; [lia|]. apply Z.pow_pos_nonneg.
      lia. pose proof (half_exponent_nonneg w). fold s in H. lia.
    + apply rne_significand. lia.
Qed.

(** What rounding returns is a float16 value. *)
Lemma round16_is_float16 (w : Z) : is_float16 (round16 w).
Proof.
  destruct (round16 w) as [k| | |] eqn:E; cbn [is_float16]; auto.
  destruct (Z.le_ge_cases 0 w) as [Hw|Hw].
  - destruct (round16_output_representable w k Hw E).
    now apply round16_representable.
  - assert (E' : round16 (- w) = HFin (- k))
      by (rewrite round16_opp, E; reflexivity).
    destruct (round16_output_representable (- w) (- k) ltac:(lia) E').
    replace (k * 2 ^ 24) with (- (- k * 2 ^ 24)) by ring.
    rewrite round16_opp, round16_representable by assumption.
    cbn [half_neg]. f_equal. lia.
Qed.

(** A value of at least one unit does not round to zero. *)
Lemma round16_pos (w : Z) :
  2 ^ 24 <= w ->
  round16 w = HPInf \/ exists k, round16 w = HFin k /\ 0 < k.
Proof.
  intros Hw. assert (H0 : 0 < w) by (pose proof (Z.pow_pos_nonneg 2 24); lia).
  destruct (round16_nonneg w (Z.lt_le_incl _ _ H0)) as [Hinf|(k & E & Hk)];
    [now left|]. right. exists k. split; [assumption|].
  revert E. unfold round16. rewrite Z.abs_eq by lia.
  set (s := half_exponent w).
  assert (Hs : 0 <= s) by apply half_exponent_nonneg.
  assert (Hd : 0 < 2 ^ (24 + s)) by (apply Z.pow_pos_nonneg; lia).
  destruct (_ <? _); [destruct (0 <? w); discriminate|].
  intros E. apply HFin_inj in E. rewrite Z.sgn_pos in E by lia.
  assert (Hq : 1 <= w / 2 ^ (24 + s)).
  { apply Z.div_le_lower_bound; [assumption|]. rewrite Z.mul_1_r.
    unfold s, half_exponent.
    destruct (Z.max_spec 0 (Z.log2 w - 34)) as [[_ ->]|[_ ->]].
    - replace (24 + (Z.log2 w - 34)) with (Z.log2 w - 10) by lia.
      destruct (Z.log2_spec w H0) as [Hle _].
      eapply Z.le_trans; [|exact Hle]. apply Z.pow_le_mono_r; lia.
    - exact Hw. }
  pose proof (rne_bounds w _ (Z.lt_le_incl _ _ H0) Hd) as [Hlb _].
  assert (0 < 2 ^ s) by (apply Z.pow_pos_nonneg; lia). nia.
Qed.

(** No overflow below the largest float16. *)
Lemma round16_bounded (w : Z) :
  0 <= w <= HALF_MAX * 2 ^ 24 ->
  exists k, round16 w = HFin k /\ 0 <= k <= HALF_MAX.
Proof.
  intros [H0 Hmax]. destruct (Z.eq_dec w 0) as [->|Hne].
  { exists 0. split; [reflexivity|]. unfold HALF_MAX, F16_MAX. lia. }
  assert (Hw : 0 < w) by lia.
  unfold round16. rewrite Z.abs_eq by lia.
  set (s := half_exponent w).
  assert (Hs : 0 <= s) by apply half_exponent_nonneg.
  assert (Hd : 0 < 2 ^ (24 + s)) by (apply Z.pow_pos_nonneg; lia).
  assert (Hp : 0 < 2 ^ s) by (apply Z.pow_pos_nonneg; lia).
  pose proof (rne_nonneg w _ H0 Hd) as Hm0.
  pose proof (rne_significand w Hw) as Hm. fold s in Hm.
  assert (Hs29 : s <= 29).
  { unfold s, half_exponent.
    assert (Z.log2 w < 64); [|lia].
    apply Z.log2_lt_pow2; [assumption|].
    unfold HALF_MAX, F16_MAX in Hmax. lia. }
  set (m := round_nearest_even w (2 ^ (24 + s))) in *.
  assert (Hk : m * 2 ^ s <= HALF_MAX).
  { destruct (Z.eq_dec s 29) as [E29|N29].
    - assert (Hm' : m <= 2047).
      { unfold m, round_nearest_even. rewrite E29.
        change (2 ^ (24 + 29)) with 9007199254740992.
        unfold HALF_MAX, F16_MAX in Hmax.
        pose proof (Z.div_mod w 9007199254740992 ltac:(lia)) as Edm.
        pose proof (Z.mod_pos_bound w 9007199254740992 ltac:(lia)) as Hr.
        assert (w / 9007199254740992 <= 2047)
          by (apply Z.div_le_upper_bound; lia).
        destruct (Z.ltb_spec (2 * (w mod 9007199254740992)) 9007199254740992);
          [lia|].
        assert (w / 9007199254740992 <= 2046) by lia.
        destruct (_ <? _); [lia|]. destruct (Z.even _); lia. }
      rewrite E29. unfold HALF_MAX, F16_MAX. lia.
    - assert (2 ^ s <= 2 ^ 28) by (apply Z.pow_le_mono_r; lia).
      unfold HALF_MAX, F16_MAX. nia. }
  destruct (Z.ltb_spec HALF_MAX (m * 2 ^ s)); [lia|].
  exists (Z.sgn w * (m * 2 ^ s)). split; [reflexivity|].
  rewrite Z.sgn_pos by lia. nia.
Qed.

End Rounding.

(** ** float16: the operations *)

Lemma half_sub_fin (a b : Z) :
  half_sub (HFin a) (HFin b) = round16 ((a - b) * 2 ^ 24).
Proof. unfold half_sub. cbn [half_neg half_add]. f_equal. Qed.

Lemma half_sub_zero (x : half) : is_float16 x -> half_sub x (HFin 0) = x.
Proof.
  destruct x as [k| | |]; intros H; try reflexivity.
  rewrite half_sub_fin, Z.sub_0_r. exact H.
Qed.

Lemma half_add_zero_r (x : half) : is_float16 x -> half_add x (HFin 0) = x.
Proof.
  destruct x as [k| | |]; intros H; try reflexivity.
  cbn [half_add]. rewrite Z.add_0_r. exact H.
Qed.

Lemma half_add_zero_l (x : half) : is_float16 x -> half_add (HFin 0) x = x.
Proof.
  destruct x as [k| | |]; intros H; try reflexivity.
  cbn [half_add]. rewrite Z.add_0_l. exact H.
Qed.

Lemma half_sub_self (x : half) :
  half_sub x x <> HNaN -> exists a, x = HFin a /\ half_sub x x = HFin 0.
Proof.
  destruct x as [a| | |]; intros H; try (exfalso; apply H; reflexivity).
  exists a. split; [reflexivity|]. rewrite half_sub_fin, Z.sub_diag. reflexivity.
Qed.

Lemma half_sub_not_nan (x y : half) :
  half_sub x y <> HNaN -> x <> HNaN /\ y <> HNaN.
Proof.
  intros H. split; intros ->; apply H; [reflexivity|].
  now destruct x.
Qed.

Lemma is_float16_sub (x y : half) : is_float16 (half_sub x y).
Proof.
  destruct x as [a| | |], y as [b| | |]; try exact I.
  rewrite half_sub_fin. apply round16_is_float16.
Qed.

Lemma is_float16_add (x y : half) : is_float16 (half_add x y).
Proof.
  destruct x as [a| | |], y as [b| | |]; try exact I.
  apply round16_is_float16.
Qed.

Lemma half_nonneg_round16 (w : Z) : (0 <= w)%Z -> half_nonneg (round16 w).
Proof.
  intros Hw. destruct (round16_nonneg w Hw) as [->|(k & -> & Hk)]; cbn; lia.
Qed.

(** The arithmetic on a few sums and differences: 2049 is no float16 and
    rounds to 2048, 4099 rounds to 4100, 65505 rounds to 65504 and 65520 to
    +inf; inf - inf is NaN. *)
Lemma half_arithmetic_samples :
  half_add (of_Z 2048) (of_Z 1) = of_Z 2048
  /\ half_sub (of_Z 2048) (of_Z (-1)) = of_Z 2048
  /\ half_add (of_Z 4096) (of_Z 3) = of_Z 4100
  /\ half_add (of_Z 65504) (of_Z 1) = of_Z 65504
  /\ half_add (of_Z 65504) (of_Z 16) = HPInf
  /\ half_sub (of_Z 65504) (of_Z (-65504)) = HPInf
  /\ half_sub HPInf HPInf = HNaN
  /\ half_mul (of_Z 1) (HFin HALF_MAX) = of_Z 65504.
Proof. repeat split; vm_compute; reflexivity. Qed.

(** ** float16: the order of the minimum *)

Lemma half_min_comm (x y : half) : half_min x y = half_min y x.
Proof. destruct x, y; cbn; try reflexivity. f_equal. lia. Qed.

Lemma half_min_assoc (x y z : half) :
  half_min x (half_min y z) = half_min (half_min x y) z.
Proof. destruct x, y, z; cbn; try reflexivity. f_equal. lia. Qed.

Lemma half_min_idem (x : half) : half_min x x = x.
Proof. destruct x; cbn; try reflexivity. f_equal. lia. Qed.

Lemma half_min_cases (x y : half) : half_min x y = x \/ half_min x y = y.
Proof.
  destruct x as [a| | |], y as [b| | |]; cbn; auto.
  destruct (Z.min_spec a b) as [[_ ->]|[_ ->]]; auto.
Qed.

Lemma fold_left_min_in (l : list half) (x : half) :
  In (fold_left half_min l x) (x :: l).
Proof.
  revert x. induction l as [|y l IH]; intros x; [now left|].
  cbn [fold_left]. destruct (IH (half_min x y)) as [E|Hin].
  - destruct (half_min_cases x y) as [E'|E']; rewrite E' in *.
    + now left.
    + right. now left.
  - right. now right.
Qed.

Lemma fold_left_min_le (l : list half) (x y : half) :
  In y (x :: l) -> min_le (fold_left half_min l x) y.
Proof.
  unfold min_le. revert x y. induction l as [|z l IH]; intros x y Hin.
  - destruct Hin as [<-|[]]. apply half_min_idem.
  - cbn [fold_left].
    assert (Hacc : half_min (fold_left half_min l (half_min x z)) (half_min x z)
                   = fold_left half_min l (half_min x z))
      by (apply IH; now left).
    destruct Hin as [<-|[<-|Hin]].
    + rewrite <- Hacc at 1. rewrite <- half_min_assoc.
      rewrite (half_min_comm (half_min x z) x), (half_min_assoc x x z).
      rewrite half_min_idem. exact Hacc.
    + rewrite <- Hacc at 1. rewrite <- half_min_assoc.
      rewrite <- (half_min_assoc x z z), half_min_idem. exact Hacc.
    + apply IH. now right.
Qed.

(** On a non-empty list [tf.reduce_min] is an element of the list that is
    below every element. *)
Lemma reduce_min_list_least (l : list half) :
  l <> [] ->
  In (reduce_min_list l) l /\ forall y, In y l -> min_le (reduce_min_list l) y.
Proof.
  destruct l as [|x l]; [congruence|]. intros _. split.
  - apply fold_left_min_in.
  - intros y Hy. now apply fold_left_min_le.
Qed.

Lemma min_le_fin (a b : Z) : min_le (HFin a) (HFin b) <-> (a <= b)%Z.
Proof.
  unfold min_le. cbn. split.
  - intros E. apply HFin_inj in E. lia.
  - intros H. f_equal. lia.
Qed.

(** Below a finite value [b], an element of a line without negative entry
    is finite, between zero and [b]. *)
Lemma min_le_nonneg_fin (x : half) (b : Z) :
  half_nonneg x -> min_le x (HFin b) -> exists a, x = HFin a /\ (0 <= a <= b)%Z.
Proof.
  destruct x as [a| | |]; cbn; intros Hx H; try contradiction.
  - exists a. apply min_le_fin in H. auto.
  - discriminate.
Qed.

(** What lies above a finite value [b] loses [b] without becoming negative. *)
Lemma half_sub_min_le (x : half) (b : Z) :
  min_le (HFin b) x -> half_nonneg (half_sub x (HFin b)).
Proof.
  destruct x as [a| | |]; unfold min_le; cbn [half_min]; intros H;
    try discriminate.
  - apply HFin_inj in H. rewrite half_sub_fin.
    apply half_nonneg_round16. nia.
  - exact I.
Qed.

(** ** float16: one line of a reducer *)

Section Line.

Variable n : nat.
Variable f : nat -> half.
Hypothesis Hn : 0 < n.

(** The minimum of the line. *)
Local Abbreviation mu := (reduce_min_list (tabulate n f)).

Lemma line_min_in : exists k, k < n /\ mu = f k.
Proof.
  apply in_tabulate. apply reduce_min_list_least. now apply tabulate_not_nil.
Qed.

Lemma line_min_le (k : nat) : k < n -> min_le mu (f k).
Proof.
  intros Hk. apply reduce_min_list_least; [now apply tabulate_not_nil|].
  apply in_tabulate. now exists k.
Qed.

(** With a finite minimum the reduced line has no negative entry, holds
    float16 values and holds a zero. *)
Lemma line_reduce (rho : Z) :
  mu = HFin rho ->
  (forall k, k < n -> half_nonneg (half_sub (f k) mu)
                      /\ is_float16 (half_sub (f k) mu))
  /\ exists k, k < n /\ half_sub (f k) mu = HFin 0.
Proof.
  intros E. split.
  - intros k Hk. split; [|apply is_float16_sub].
    rewrite E. apply half_sub_min_le. rewrite <- E. now apply line_min_le.
  - destruct line_min_in as (k & Hk & Ek). exists k. split; [assumption|].
    rewrite <- Ek, E, half_sub_fin, Z.sub_diag. reflexivity.
Qed.

Lemma line_min_finite_of_finite :
  (forall k, k < n -> is_finite (f k) = true) -> exists rho, mu = HFin rho.
Proof.
  intros Hfin. destruct line_min_in as (k & Hk & ->).
  specialize (Hfin k Hk). destruct (f k) as [a| | |]; try discriminate.
  now exists a.
Qed.

Lemma line_min_finite_of_no_nan :
  (forall k, k < n -> half_sub (f k) mu <> HNaN) -> exists rho, mu = HFin rho.
Proof.
  intros Hno. destruct line_min_in as (k & Hk & Ek).
  specialize (Hno k Hk). rewrite <- Ek in Hno.
  destruct (half_sub_self mu Hno) as (a & Ea & _). now exists a.
Qed.

Lemma line_min_finite_of_nonneg :
  (forall k, k < n -> half_nonneg (f k)) ->
  (exists k, k < n /\ is_finite (f k) = true) ->
  exists rho, mu = HFin rho /\ (0 <= rho)%Z.
Proof.
  intros Hpos (k & Hk & Hf).
  destruct (f k) as [b| | |] eqn:Eb; try discriminate.
  pose proof (line_min_le k Hk) as Hle. rewrite Eb in Hle.
  assert (Hmu : half_nonneg mu)
    by (destruct line_min_in as (k' & Hk' & ->); now apply Hpos).
  destruct (min_le_nonneg_fin mu b Hmu Hle) as (a & Ea & Ha).
  exists a. split; [assumption | lia].
Qed.

Lemma line_min_zero :
  (forall k, k < n -> half_nonneg (f k)) ->
  (exists k, k < n /\ f k = HFin 0) ->
  mu = HFin 0.
Proof.
  intros Hpos (k & Hk & Ez).
  pose proof (line_min_le k Hk) as Hle. rewrite Ez in Hle.
  assert (Hmu : half_nonneg mu)
    by (destruct line_min_in as (k' & Hk' & ->); now apply Hpos).
  destruct (min_le_nonneg_fin mu 0 Hmu Hle) as (a & Ea & Ha).
  rewrite Ea. f_equal. lia.
Qed.

(** A line of float16 values without negative entry that holds a zero is
    left as it is. *)
Lemma line_fix (k : nat) :
  (forall k, k < n -> half_nonneg (f k) /\ is_float16 (f k)) ->
  (exists k, k < n /\ f k = HFin 0) ->
  k < n -> half_sub (f k) mu = f k.
Proof.
  intros H Hz Hk. rewrite line_min_zero; auto.
  - apply half_sub_zero. now apply H.
  - intros k' Hk'. now apply H.
Qed.

End Line.

(** ** float16: the reducers on tables *)

Lemma least_cons (x : half) (l : list half) :
  l <> [] -> least (x :: l) = half_min x (least l).
Proof. destruct l; [congruence | reflexivity]. Qed.

Lemma fold_left_min_least (l : list half) (x : half) :
  l <> [] -> fold_left half_min l x = half_min x (least l).
Proof.
  revert x. induction l as [|y l IH]; [congruence|]. intros x _.
  destruct l as [|z l]; [reflexivity|].
  cbn [fold_left] in *. rewrite IH by discriminate.
  rewrite (least_cons y (z :: l)) by discriminate.
  now rewrite half_min_assoc.
Qed.

(** [tf.reduce_min] of a list is its least element. *)
Lemma reduce_min_list_half (l : list half) : reduce_min_list l = least l.
Proof.
  destruct l as [|x l]; [reflexivity|]. destruct l as [|y l]; [reflexivity|].
  unfold reduce_min_list. cbn [f_min half_scalar].
  rewrite fold_left_min_least by discriminate. reflexivity.
Qed.

Lemma values_reduce_rows_half (d : DType) (r c : nat) (g : nat -> nat -> half) :
  0 < r -> 0 < c ->
  values (reduce_rows (mkTensor d (mk r c g))) = mk r c (half_row_reduced c g).
Proof. intros Hr Hc. now rewrite values_reduce_rows_mk. Qed.

Lemma values_reduce_cols_half (d : DType) (r c : nat) (g : nat -> nat -> half) :
  0 < r -> 0 < c ->
  values (reduce_cols (mkTensor d (mk r c g))) = mk r c (half_col_reduced r g).
Proof. intros Hr Hc. now rewrite values_reduce_cols_mk. Qed.

Lemma values_reduce_half (d : DType) (r c : nat) (g : nat -> nat -> half) :
  0 < r -> 0 < c ->
  values (reduce_cols (reduce_rows (mkTensor d (mk r c g))))
  = mk r c (half_col_reduced r (half_row_reduced c g)).
Proof.
  intros Hr Hc. rewrite reduce_rows_eta, values_reduce_rows_half by assumption.
  now apply values_reduce_cols_half.
Qed.

Lemma subtract_row_minima_mk (r c : nat) (g : nat -> nat -> half) :
  subtract_row_minima (mk r c g) = mk r c (half_row_reduced c g).
Proof.
  unfold subtract_row_minima. rewrite map_mk_rows. unfold mk.
  apply tabulate_ext. intros i _. rewrite map_tabulate.
  apply tabulate_ext. intros j _. unfold half_row_reduced.
  now rewrite reduce_min_list_half.
Qed.

Lemma subtract_col_minima_mk (r c : nat) (g : nat -> nat -> half) :
  subtract_col_minima (mk r c g) = mk r c (half_col_reduced r g).
Proof.
  unfold subtract_col_minima. rewrite map_mk_rows. unfold mk at 2.
  apply tabulate_ext. intros i _.
  rewrite length_tabulate, combine_seq_tabulate, map_tabulate.
  apply tabulate_ext. intros j Hj. cbn [fst snd]. unfold half_col_reduced.
  now rewrite column_mk, reduce_min_list_half.
Qed.

Lemma spec_reduce_mk (r c : nat) (g : nat -> nat -> half) :
  spec_reduce (mk r c g) = mk r c (half_col_reduced r (half_row_reduced c g)).
Proof.
  unfold spec_reduce. now rewrite subtract_row_minima_mk, subtract_col_minima_mk.
Qed.

(** Row reduction of a table whose row minima are finite. *)
Lemma rows_forward (r c : nat) (g : nat -> nat -> half) :
  0 < c ->
  (forall i, i < r -> exists rho, reduce_min_list (tabulate c (g i)) = HFin rho) ->
  (forall i j, i < r -> j < c ->
     half_nonneg (half_row_reduced c g i j)
     /\ is_float16 (half_row_reduced c g i j))
  /\ (forall i, i < r -> exists j, j < c /\ half_row_reduced c g i j = HFin 0).
Proof.
  intros Hc Hmin. split.
  - intros i j Hi Hj. destruct (Hmin i Hi) as (rho & E).
    now apply (proj1 (line_reduce c (g i) Hc rho E)).
  - intros i Hi. destruct (Hmin i Hi) as (rho & E).
    apply (proj2 (line_reduce c (g i) Hc rho E)).
Qed.

(** Column reduction of a table without negative entry, with a zero on
    every row, whose column minima are finite. *)
Lemma cols_forward (r c : nat) (g : nat -> nat -> half) :
  0 < r ->
  (forall i j, i < r -> j < c -> half_nonneg (g i j)) ->
  (forall i, i < r -> exists j, j < c /\ g i j = HFin 0) ->
  (forall j, j < c ->
     exists rho, reduce_min_list (tabulate r (fun i => g i j)) = HFin rho) ->
  reduced_table r c (half_col_reduced r g).
Proof.
  intros Hr Hpos Hrow Hmin. split; [|split].
  - intros i j Hi Hj. destruct (Hmin j Hj) as (rho & E).
    now apply (proj1 (line_reduce r (fun i' => g i' j) Hr rho E)).
  - intros i Hi. destruct (Hrow i Hi) as (j & Hj & Ez). exists j.
    split; [assumption|]. unfold half_col_reduced.
    rewrite (line_min_zero r (fun i' => g i' j) Hr).
    + rewrite Ez. reflexivity.
    + intros i' Hi'. now apply Hpos.
    + now exists i.
  - intros j Hj. destruct (Hmin j Hj) as (rho & E).
    apply (proj2 (line_reduce r (fun i' => g i' j) Hr rho E)).
Qed.

(** Both reducers leave a reduced table as it is. *)
Lemma reduced_table_fix (r c : nat) (g : nat -> nat -> half) (i j : nat) :
  0 < r -> 0 < c -> reduced_table r c g -> i < r -> j < c ->
  half_row_reduced c g i j = g i j /\ half_col_reduced r g i j = g i j.
Proof.
  intros Hr Hc (Hpos & Hrow & Hcol) Hi Hj. split.
  - apply (line_fix c (g i) Hc j); auto.
  - apply (line_fix r (fun i' => g i' j) Hr i); auto.
Qed.

(** A table both reducers produced without a NaN is a reduced table. *)
Lemma reduced_no_nan (n : nat) (g : nat -> nat -> half) :
  0 < n ->
  (forall i j, i < n -> j < n ->
     half_col_reduced n (half_row_reduced n g) i j <> HNaN) ->
  reduced_table n n (half_col_reduced n (half_row_reduced n g)).
Proof.
  intros Hn Hno.
  assert (HN : forall i j, i < n -> j < n -> half_row_reduced n g i j <> HNaN).
  { intros i j Hi Hj. now apply (half_sub_not_nan _ _ (Hno i j Hi Hj)). }
  destruct (rows_forward n n g Hn) as [Hpos Hrow].
  { intros i Hi. apply (line_min_finite_of_no_nan n (g i) Hn).
    intros k Hk. now apply HN. }
  apply cols_forward; auto.
  - intros i j Hi Hj. now apply Hpos.
  - intros j Hj.
    apply (line_min_finite_of_no_nan n (fun i => half_row_reduced n g i j) Hn).
    intros k Hk. now apply Hno.
Qed.

(** ** float16: the reducers on tensors *)

Lemma values_reduce_rows_half_cells (t : Tensor half) (r c : nat) :
  0 < r -> 0 < c -> shape (values t) r c ->
  values (reduce_rows t)
  = mk r c (half_row_reduced c (cell (HFin 0) (values t))).
Proof.
  intros Hr Hc Hs. destruct t as [d m]. cbn [values] in *.
  rewrite (mk_cell (HFin 0) m r c Hs) at 1. now apply values_reduce_rows_half.
Qed.

Lemma values_reduce_cols_half_cells (t : Tensor half) (r c : nat) :
  0 < r -> 0 < c -> shape (values t) r c ->
  values (reduce_cols t)
  = mk r c (half_col_reduced r (cell (HFin 0) (values t))).
Proof.
  intros Hr Hc Hs. destruct t as [d m]. cbn [values] in *.
  rewrite (mk_cell (HFin 0) m r c Hs) at 1. now apply values_reduce_cols_half.
Qed.

Lemma values_reduce_half_cells (t : Tensor half) (r c : nat) :
  0 < r -> 0 < c -> shape (values t) r c ->
  values (reduce_cols (reduce_rows t))
  = mk r c (half_col_reduced r (half_row_reduced c (cell (HFin 0) (values t)))).
Proof.
  intros Hr Hc Hs. destruct t as [d m]. cbn [values] in *.
  rewrite (mk_cell (HFin 0) m r c Hs) at 1. now apply values_reduce_half.
Qed.

Lemma reduced_table_ext (r c : nat) (g g' : nat -> nat -> half) :
  (forall i j, i < r -> j < c -> g i j = g' i j) ->
  reduced_table r c g -> reduced_table r c g'.
Proof.
  intros E (Hpos & Hrow & Hcol). split; [|split].
  - intros i j Hi Hj. rewrite <- E by assumption. now apply Hpos.
  - intros i Hi. destruct (Hrow i Hi) as (j & Hj & Ez). exists j.
    split; [assumption|]. now rewrite <- E.
  - intros j Hj. destruct (Hcol j Hj) as (i & Hi & Ez). exists i.
    split; [assumption|]. now rewrite <- E.
Qed.

(** A float16 tensor holding a reduced table is left as it is by both
    reducers. *)
Lemma reduce_fix_half (t : Tensor half) (r c : nat) :
  0 < r -> 0 < c -> shape (values t) r c ->
  reduced_table r c (cell (HFin 0) (values t)) ->
  values (reduce_rows t) = values t /\ values (reduce_cols t) = values t.
Proof.
  intros Hr Hc Hs Hred. split.
  - rewrite (values_reduce_rows_half_cells t r c Hr Hc Hs).
    rewrite (mk_cell (HFin 0) (values t) r c Hs) at 2.
    apply mk_ext. intros i j Hi Hj.
    now apply (reduced_table_fix r c _ i j Hr Hc Hred).
  - rewrite (values_reduce_cols_half_cells t r c Hr Hc Hs).
    rewrite (mk_cell (HFin 0) (values t) r c Hs) at 2.
    apply mk_ext. intros i j Hi Hj.
    now apply (reduced_table_fix r c _ i j Hr Hc Hred).
Qed.

Lemma reduce_reduce_fix_half (t : Tensor half) (n : nat) :
  0 < n -> square (values t) n -> dtype t = Float16 ->
  reduced_table n n (cell (HFin 0) (values t)) ->
  reduce_cols (reduce_rows t) = t.
Proof.
  intros Hn Hsq Hd Hred.
  destruct (reduce_fix_half t n n Hn Hn Hsq Hred) as [Er Ec].
  assert (E1 : reduce_rows t = t).
  { rewrite reduce_rows_eta, Er. destruct t as [d m]. cbn in *. now subst d. }
  now rewrite E1, reduce_cols_eta, Ec, <- Hd; destruct t.
Qed.

(** C3 as the code has it: on a square float16 matrix of finite values such
    that no column of the row-reduced matrix is +inf throughout,
    [reduce_rows] followed by [reduce_cols] returns the matrix the
    specification describes, the subtractions being those of float16 (every
    entry loses the minimum of its row, then every entry of the result loses
    the minimum of its column, each difference rounded to the nearest
    float16 and +inf when it overflows); the result is square again, each of
    its rows and each of its columns holds a zero, and no entry is below
    zero. *)
Theorem reduce_rows_cols_spec (t : Tensor half) (n : nat) :
  dtype t = Float16 ->
  square (values t) n ->
  (forall i j, i < n -> j < n ->
     is_finite (cell (HFin 0) (values t) i j) = true) ->
  (forall j, j < n -> exists i, i < n
     /\ is_finite (cell (HFin 0) (values (reduce_rows t)) i j) = true) ->
  let R := values (reduce_cols (reduce_rows t)) in
  R = spec_reduce (values t)
  /\ square R n
  /\ (forall i, i < n -> exists j, j < n /\ cell (HFin 0) R i j = HFin 0)
  /\ (forall j, j < n -> exists i, i < n /\ cell (HFin 0) R i j = HFin 0)
  /\ (forall i j, i < n -> j < n -> half_nonneg (cell (HFin 0) R i j)).
Proof.
  intros _ Hsq Hfin Hcolfin. destruct n as [|n'].
  - destruct t as [d m]. cbn [values] in *. apply shape_zero_nil in Hsq.
    subst m. cbn. repeat split; try (intros; lia). constructor.
  - set (n := S n') in *. assert (Hn : 0 < n) by (unfold n; lia).
    intros R. unfold R.
    rewrite (values_reduce_half_cells t n n Hn Hn Hsq).
    rewrite (values_reduce_rows_half_cells t n n Hn Hn Hsq) in Hcolfin.
    set (g := cell (HFin 0) (values t)) in *.
    split.
    { rewrite (mk_cell (HFin 0) (values t) n n Hsq) at 1. fold g.
      now rewrite spec_reduce_mk. }
    split; [apply shape_mk|].
    destruct (rows_forward n n g Hn) as [Hpos Hrow].
    { intros i Hi. apply (line_min_finite_of_finite n (g i) Hn).
      intros k Hk. now apply Hfin. }
    assert (Hred : reduced_table n n (half_col_reduced n (half_row_reduced n g))).
    { apply cols_forward; auto.
      - intros i j Hi Hj. now apply Hpos.
      - intros j Hj.
        destruct (line_min_finite_of_nonneg n
                    (fun i => half_row_reduced n g i j) Hn) as (rho & E & _).
        + intros k Hk. now apply Hpos.
        + destruct (Hcolfin j Hj) as (i & Hi & Hf). exists i.
          split; [assumption|]. now rewrite cell_mk in Hf.
        + now exists rho. }
    destruct Hred as (Hpos' & Hrow' & Hcol').
    split; [|split].
    + intros i Hi. destruct (Hrow' i Hi) as (j & Hj & Ez). exists j.
      split; [assumption|]. now rewrite cell_mk.
    + intros j Hj. destruct (Hcol' j Hj) as (i & Hi & Ez). exists i.
      split; [assumption|]. now rewrite cell_mk.
    + intros i j Hi Hj. rewrite cell_mk by assumption. now apply Hpos'.
Qed.

(** C3 does not hold as stated: on a 2 by 2 matrix of finite float16 values
    the row reduction overflows, column 0 of the row-reduced matrix is +inf
    throughout, and the column reduction turns it into NaN: column 0 of the
    result holds no zero and no entry that is at least zero. *)
Lemma reduce_overflow_nan :
  let t := t16 [[65504; -65504]; [65504; -65504]]%Z in
  square (values t) 2
  /\ forallb (forallb is_finite) (values t) = true
  /\ values (reduce_rows t) = [[HPInf; HFin 0]; [HPInf; HFin 0]]
  /\ values (reduce_cols (reduce_rows t)) = [[HNaN; HFin 0]; [HNaN; HFin 0]].
Proof.
  split; [split; [reflexivity | repeat constructor]|].
  split; [reflexivity|]. split; reflexivity.
Qed.

Lemma reduce_rows_cols_spec_witness :
  let t := t16 sample in
  (dtype t = Float16 /\ square (values t) 3
   /\ forallb (forallb is_finite) (values t) = true
   /\ forallb (forallb is_finite) (values (reduce_rows t)) = true)
  /\ values (reduce_cols (reduce_rows t)) = spec_reduce (values t)
  /\ reduce_cols (reduce_rows t) = t16 [[15; 15; 0]; [0; 0; 10]; [5; 5; 0]]%Z.
Proof.
  intros t.
  assert (Hsq : square (values t) 3) by (split; [reflexivity | repeat constructor]).
  split; [split; [reflexivity | split; [exact Hsq | split; vm_compute; reflexivity]]|].
  split; [|vm_compute; reflexivity].
  apply (reduce_rows_cols_spec t 3 eq_refl Hsq).
  - intros i j Hi Hj.
    destruct i as [|[|[|i]]]; destruct j as [|[|[|j]]]; try (exfalso; lia);
      vm_compute; reflexivity.
  - intros j Hj. exists 0. split; [lia|].
    destruct j as [|[|[|j]]]; try (exfalso; lia); vm_compute; reflexivity.
Defined.

(** ** float16: the zero shifter *)

Lemma half_ONE : ONE (V := half) = HFin HALF_ONE.
Proof. reflexivity. Qed.

Lemma half_ZERO : ZERO (V := half) = HFin 0.
Proof. reflexivity. Qed.

Lemma half_mul_b2v (x : Z) (b : bool) :
  is_float16 (HFin x) ->
  half_mul (HFin x) (b2v b) = if b then HFin x else HFin 0.
Proof.
  intros Hx. destruct b; unfold b2v.
  - rewrite half_ONE. exact Hx.
  - rewrite half_ZERO. cbn [half_mul]. now rewrite Z.mul_0_r.
Qed.

Lemma is_float16_max : is_float16 (HFin HALF_MAX).
Proof. reflexivity. Qed.

Lemma is_float16_bound (x : Z) :
  (0 <= x)%Z -> is_float16 (HFin x) -> (x <= HALF_MAX)%Z.
Proof.
  intros Hx E. cbn [is_float16] in E.
  destruct (round16_nonneg (x * 2 ^ 24)) as [Hinf|(k & Ek & Hk)]; [lia | congruence|].
  rewrite E in Ek. apply HFin_inj in Ek. lia.
Qed.

Lemma outline_weight_half (g : nat -> nat -> half) (rf cf : nat -> nat -> bool)
  (i j : nat) (x : Z) :
  g i j = HFin x -> is_float16 (HFin x) ->
  outline_weight g rf cf i j
  = if negb (rf i 0 || cf 0 j) then HFin x else HFin HALF_MAX.
Proof.
  intros E Hx. unfold outline_weight. rewrite E.
  cbn [f_add f_mul f_sub f_max half_scalar]. rewrite half_mul_b2v by assumption.
  destruct (negb (rf i 0 || cf 0 j)).
  - change (half_mul (half_sub ONE (b2v true)) (HFin HALF_MAX)) with (HFin 0).
    now apply half_add_zero_l.
  - reflexivity.
Qed.

Lemma shifted_cell_half (n : nat) (g : nat -> nat -> half)
  (rf cf : nat -> nat -> bool) (i j : nat) (x d : Z) :
  g i j = HFin x -> is_float16 (HFin x) ->
  shift_delta n g rf cf = HFin d -> is_float16 (HFin d) ->
  shifted_cell n g rf cf i j
  = if negb (rf i 0 || cf 0 j) then half_sub (HFin x) (HFin d)
    else if rf i 0 && cf 0 j then half_add (HFin x) (HFin d)
    else HFin x.
Proof.
  intros E Hx Ed Hd. unfold shifted_cell. cbv zeta. rewrite E, Ed.
  cbn [f_add f_mul f_sub half_scalar]. rewrite !half_mul_b2v by assumption.
  destruct (rf i 0), (cf 0 j); cbn [negb orb andb].
  - change (half_add (HFin 0) (half_sub (HFin 0) (HFin 0))) with (HFin 0).
    apply half_add_zero_r, is_float16_add.
  - change (half_sub (HFin 0) (HFin 0)) with (HFin 0).
    change (half_add (HFin 0) (HFin 0)) with (HFin 0).
    rewrite (half_add_zero_r (HFin x)) by assumption.
    now apply half_add_zero_l.
  - change (half_sub (HFin 0) (HFin 0)) with (HFin 0).
    change (half_add (HFin 0) (HFin 0)) with (HFin 0).
    rewrite (half_add_zero_r (HFin x)) by assumption.
    now apply half_add_zero_l.
  - change (half_add (HFin 0) (HFin 0)) with (HFin 0).
    rewrite (half_add_zero_l (half_sub _ _)) by apply is_float16_sub.
    apply half_add_zero_l, is_float16_sub.
Qed.

(** The minimum [shift_zeros] takes, on a table of finite float16 values. *)
Lemma shift_delta_half (n : nat) (g : nat -> nat -> half)
  (rf cf : nat -> nat -> bool) (x : nat -> nat -> Z) :
  0 < n ->
  (forall i j, i < n -> j < n -> g i j = HFin (x i j) /\ is_float16 (HFin (x i j))) ->
  let W := fun i j => if negb (rf i 0 || cf 0 j) then HFin (x i j)
                      else HFin HALF_MAX in
  (exists i j, i < n /\ j < n /\ shift_delta n g rf cf = W i j)
  /\ (forall i j, i < n -> j < n -> min_le (shift_delta n g rf cf) (W i j)).
Proof.
  intros Hn Hg W. unfold shift_delta.
  rewrite (mk_ext n n (outline_weight g rf cf) W).
  2:{ intros i j Hi Hj. destruct (Hg i j Hi Hj) as [E Hx].
      now apply outline_weight_half. }
  destruct (reduce_min_list_least (concat (mk n n W))
              (concat_mk_not_nil n W Hn)) as [Hin Hle].
  split.
  - apply in_concat_mk in Hin. destruct Hin as (i & j & Hi & Hj & E).
    now exists i, j.
  - intros i j Hi Hj. apply Hle, in_concat_mk. now exists i, j.
Qed.


Lemma shift_delta_half_no_outline (n : nat) (g : nat -> nat -> half)
  (rf cf : nat -> nat -> bool) (x : nat -> nat -> Z) :
  0 < n ->
  (forall i j, i < n -> j < n -> g i j = HFin (x i j) /\ is_float16 (HFin (x i j))) ->
  (forall i j, i < n -> j < n -> negb (rf i 0 || cf 0 j) = false) ->
  shift_delta n g rf cf = HFin HALF_MAX.
Proof.
  intros Hn Hg Hno.
  destruct (shift_delta_half n g rf cf x Hn Hg) as [(i & j & Hi & Hj & E) _].
  cbv beta in E. now rewrite Hno in E.
Qed.

Lemma shift_zeros_half_cells (t : Tensor half)
  (rows_mask cols_mask : BoolTensor) (n : nat) :
  0 < n -> square (values t) n -> shape rows_mask n 1 -> shape cols_mask 1 n ->
  shift_zeros t rows_mask cols_mask
  = (mkTensor (dtype t)
       (mk n n (shifted_cell n (cell (HFin 0) (values t))
                  (cell false rows_mask) (cell false cols_mask))),
     rows_mask, cols_mask).
Proof. exact (shift_zeros_cells t rows_mask cols_mask n). Qed.


(** C8 as the code has it: when the masks leave no cell of a float16 matrix
    of finite values uncovered, [shift_zeros] raises nothing and returns the
    two masks with the matrix in which the sentinel [tf.float16.max], the
    minimum it computed, is added in float16 to every cross cell (the sum is
    rounded, and is +inf when it overflows), the inline cells being kept. *)
Theorem shift_zeros_no_outline (t : Tensor half)
  (rows_mask cols_mask : BoolTensor) (n : nat) :
  dtype t = Float16 ->
  0 < n -> square (values t) n -> shape rows_mask n 1 -> shape cols_mask 1 n ->
  (forall i j, i < n -> j < n ->
     is_float16 (cell (HFin 0) (values t) i j)
     /\ is_finite (cell (HFin 0) (values t) i j) = true) ->
  (forall i j, i < n -> j < n -> outline rows_mask cols_mask i j = false) ->
  exists t' : Tensor half,
    shift_zeros t rows_mask cols_mask = (t', rows_mask, cols_mask)
    /\ dtype t' = Float16
    /\ square (values t') n
    /\ forall i j, i < n -> j < n ->
         (cross rows_mask cols_mask i j = true ->
          cell (HFin 0) (values t') i j
          = half_add (cell (HFin 0) (values t) i j) (HFin HALF_MAX))
         /\ (cross rows_mask cols_mask i j = false ->
             inline rows_mask cols_mask i j = true
             /\ cell (HFin 0) (values t') i j = cell (HFin 0) (values t) i j).
Proof.
  intros Hdt Hn Hsq Hr Hc Hval Hno.
  set (g := cell (HFin 0) (values t)) in *.
  set (rf := cell false rows_mask). set (cf := cell false cols_mask).
  set (x := fun i j => half_value (g i j)).
  assert (Hg : forall i j, i < n -> j < n ->
            g i j = HFin (x i j) /\ is_float16 (HFin (x i j))).
  { intros i j Hi Hj. destruct (Hval i j Hi Hj) as (Hf & Hfin).
    unfold x. destruct (g i j); try discriminate. auto. }
  assert (Ed : shift_delta n g rf cf = HFin HALF_MAX).
  { apply (shift_delta_half_no_outline n g rf cf x Hn Hg). intros i j Hi Hj.
    unfold rf, cf. rewrite outline_cells. now apply Hno. }
  exists (mkTensor (dtype t) (mk n n (shifted_cell n g rf cf))).
  split; [exact (shift_zeros_half_cells t rows_mask cols_mask n Hn Hsq Hr Hc)|].
  split; [exact Hdt|]. split; [apply shape_mk|].
  intros i j Hi Hj. cbn [values]. rewrite cell_mk by assumption.
  destruct (Hg i j Hi Hj) as (Eg & Hx).
  rewrite (shifted_cell_half n g rf cf i j (x i j) HALF_MAX Eg Hx Ed
             is_float16_max).
  unfold rf, cf. rewrite outline_cells, (Hno i j Hi Hj).
  change (cell false rows_mask i 0 && cell false cols_mask 0 j)
    with (cross rows_mask cols_mask i j).
  rewrite Eg. specialize (Hno i j Hi Hj). unfold outline, cross, inline in *.
  destruct (row_marked rows_mask i), (col_marked cols_mask j);
    cbn in *; try discriminate; split; intros; auto; discriminate.
Qed.


Lemma shift_zeros_no_outline_witness :
  let t := t16 [[1; 20]; [0; 0]]%Z in
  let rows_mask := [[true]; [false]] in
  let cols_mask := [[true; true]] in
  (dtype t = Float16 /\ 0 < 2 /\ square (values t) 2
   /\ shape rows_mask 2 1 /\ shape cols_mask 1 2)
  /\ (forall i j, i < 2 -> j < 2 -> outline rows_mask cols_mask i j = false)
  /\ values (fst (fst (shift_zeros t rows_mask cols_mask)))
     = [[HFin HALF_MAX; HPInf]; [HFin 0; HFin 0]]
  /\ exists t' : Tensor half,
       shift_zeros t rows_mask cols_mask = (t', rows_mask, cols_mask)
       /\ square (values t') 2.
Proof.
  intros t rows_mask cols_mask.
  assert (Hsq : square (values t) 2) by (split; [reflexivity | repeat constructor]).
  assert (Hr : shape rows_mask 2 1) by (split; [reflexivity | repeat constructor]).
  assert (Hc : shape cols_mask 1 2) by (split; [reflexivity | repeat constructor]).
  assert (Hval : forall i j, i < 2 -> j < 2 ->
            is_float16 (cell (HFin 0) (values t) i j)
            /\ is_finite (cell (HFin 0) (values t) i j) = true).
  { intros i j Hi Hj.
    destruct i as [|[|i]]; destruct j as [|[|j]]; try (exfalso; lia);
      vm_compute; split; reflexivity. }
  assert (Hno : forall i j, i < 2 -> j < 2 ->
                            outline rows_mask cols_mask i j = false).
  { intros i j Hi Hj.
    destruct i as [|[|i]]; destruct j as [|[|j]]; try (exfalso; lia); reflexivity. }
  split; [split; [reflexivity | split; [lia | split; [exact Hsq | split; [exact Hr | exact Hc]]]]|].
  split; [exact Hno|]. split; [reflexivity|].
  destruct (shift_zeros_no_outline t rows_mask cols_mask 2 eq_refl
              (Nat.lt_0_succ 1) Hsq Hr Hc Hval Hno) as (t' & E & _ & Hsq' & _).
  exists t'. auto.
Defined.

(** ** float16: the optimality test *)

Lemma round16_int (i : Z) :
  (0 <= i <= 2048)%Z -> round16 (i * 2 ^ 48) = HFin (i * 2 ^ 24).
Proof.
  intros Hi. replace (i * 2 ^ 48)%Z with (i * 2 ^ 24 * 2 ^ 24)%Z
    by (change (2 ^ 48)%Z with (2 ^ 24 * 2 ^ 24)%Z; ring).
  apply round16_representable.
  - unfold HALF_MAX, F16_MAX. lia.
  - exists i, 24%Z. change (2 ^ 11)%Z with 2048%Z. lia.
Qed.

(** Above 2048 a count rounds to an even number, never below 2048. *)
Lemma round16_count_table :
  forallb (fun i =>
             match round16 (Z.of_nat i * 2 ^ 48) with
             | HFin k => (2048 * 2 ^ 24 <=? k)%Z
             | _ => false
             end) (seq 2049 2048) = true.
Proof. vm_compute. reflexivity. Qed.

Lemma round16_count_large (i : nat) :
  2048 < i < 4097 ->
  exists k, round16 (Z.of_nat i * 2 ^ 48) = HFin k /\ (2048 * 2 ^ 24 <= k)%Z.
Proof.
  intros Hi. pose proof round16_count_table as H.
  rewrite forallb_forall in H. specialize (H i).
  assert (Hin : In i (seq 2049 2048)) by (apply in_seq; lia).
  specialize (H Hin). destruct (round16 _) as [k| | |]; try discriminate.
  exists k. split; [reflexivity|]. now apply Z.leb_le.
Qed.

Lemma fold_left_add_count (l : list bool) (a : nat) :
  a + count_true l <= 2048 ->
  fold_left half_add (map (b2v (V := half)) l) (HFin (Z.of_nat a * 2 ^ 24))
  = HFin (Z.of_nat (a + count_true l) * 2 ^ 24).
Proof.
  revert a. induction l as [|b l IH]; intros a Hle.
  - cbn. now rewrite Nat.add_0_r.
  - cbn [map fold_left count_true] in *. destruct b.
    + change (b2v (V := half) true) with (HFin HALF_ONE). cbn [half_add].
      replace ((Z.of_nat a * 2 ^ 24 + HALF_ONE) * 2 ^ 24)%Z
        with (Z.of_nat (S a) * 2 ^ 48)%Z
        by (unfold HALF_ONE; change (2 ^ 48)%Z with (2 ^ 24 * 2 ^ 24)%Z; lia).
      rewrite round16_int by lia. rewrite IH by lia. f_equal. f_equal. lia.
    + change (b2v (V := half) false) with (HFin 0). cbn [half_add].
      replace ((Z.of_nat a * 2 ^ 24 + 0) * 2 ^ 24)%Z
        with (Z.of_nat a * 2 ^ 48)%Z
        by (change (2 ^ 48)%Z with (2 ^ 24 * 2 ^ 24)%Z; lia).
      rewrite round16_int by lia. rewrite IH by lia. reflexivity.
Qed.

(** Summing the float16 cast of a mask counts its marked lines, as long as
    they are no more than 2048. *)
Lemma reduce_sum_cast_bool_half (mask : BoolTensor) :
  count_marked mask <= 2048 ->
  tf_reduce_sum (V := half) (tf_cast_bool mask)
  = HFin (Z.of_nat (count_marked mask) * 2 ^ 24).
Proof.
  intros Hle. unfold tf_reduce_sum, tf_cast_bool, count_marked in *.
  cbn [values]. rewrite <- concat_map.
  change (@f_add half half_scalar) with half_add.
  change (@ZERO half half_scalar) with (HFin (Z.of_nat 0 * 2 ^ 24)).
  change (fun b : bool => if b then ONE else ZERO) with (b2v (V := half)).
  now rewrite fold_left_add_count.
Qed.

Lemma count_true_le_length (l : list bool) : count_true l <= length l.
Proof. induction l as [|[|] l IH]; cbn; lia. Qed.

Lemma count_marked_rows_le (rows_mask : BoolTensor) (n : nat) :
  shape rows_mask n 1 -> count_marked rows_mask <= n.
Proof.
  intros Hr. rewrite (count_marked_rows rows_mask n Hr).
  pose proof (count_true_le_length (map (row_marked rows_mask) (seq 0 n))) as H.
  now rewrite length_map, length_seq in H.
Qed.

Lemma count_marked_cols_le (cols_mask : BoolTensor) (n : nat) :
  shape cols_mask 1 n -> count_marked cols_mask <= n.
Proof.
  intros Hc. rewrite (count_marked_cols cols_mask n Hc).
  pose proof (count_true_le_length (map (col_marked cols_mask) (seq 0 n))) as H.
  now rewrite length_map, length_seq in H.
Qed.

(** Up to 2047 lines the float16 test is the test on the counts. *)
Lemma is_optimal_assignment_half (rows_mask cols_mask : BoolTensor) (n : nat) :
  n < 2048 -> shape rows_mask n 1 -> shape cols_mask 1 n ->
  is_optimal_assignment (V := half) rows_mask cols_mask
  = Ok (count_marked rows_mask + count_marked cols_mask =? n).
Proof.
  intros Hn Hr Hc.
  pose proof (count_marked_rows_le rows_mask n Hr) as Hrn.
  pose proof (count_marked_cols_le cols_mask n Hc) as Hcn.
  unfold is_optimal_assignment.
  assert (El : length rows_mask = n) by now destruct Hr.
  assert (Ec : ncols cols_mask = n).
  { destruct Hc as [Hl Hf]. destruct cols_mask as [|row [|]]; try discriminate.
    now inversion Hf. }
  rewrite El, Ec, Nat.eqb_refl.
  rewrite !reduce_sum_cast_bool_half by lia. f_equal.
  cbn [f_add f_eqb of_Z half_scalar half_add].
  rewrite round16_int by lia.
  set (r := count_marked rows_mask) in *. set (c := count_marked cols_mask) in *.
  replace ((Z.of_nat r * 2 ^ 24 + Z.of_nat c * 2 ^ 24) * 2 ^ 24)%Z
    with (Z.of_nat (r + c) * 2 ^ 48)%Z
    by (change (2 ^ 48)%Z with (2 ^ 24 * 2 ^ 24)%Z; lia).
  destruct (Nat.le_gt_cases (r + c) 2048) as [Hs|Hs].
  - rewrite round16_int by lia. cbn [half_eqb].
    destruct (Nat.eqb_spec (r + c) n) as [E|E].
    + apply Z.eqb_eq. rewrite E. reflexivity.
    + apply Z.eqb_neq. intros H. apply E.
      apply Z.mul_reg_r in H; [lia|]. discriminate.
  - destruct (round16_count_large (r + c)) as (k & -> & Hk); [lia|].
    cbn [half_eqb].
    destruct (Nat.eqb_spec (r + c) n) as [E|E]; [lia|].
    apply Z.eqb_neq. change (2 ^ 24)%Z with 16777216%Z in *. lia.
Qed.




(** ** The reduction loop, whatever the element type *)

Section Loop.

Context {V : Type} {SV : Scalar V}.

Lemma square_reduce_any (t : Tensor V) (n : nat) :
  square (values t) n -> square (values (reduce_cols (reduce_rows t))) n.
Proof.
  destruct t as [d m]. cbn [values]. intros Hsq. destruct n as [|n'].
  - apply shape_zero_nil in Hsq. subst m. split; [reflexivity | constructor].
  - rewrite (mk_cell ZERO m (S n') (S n') Hsq).
    rewrite reduce_rows_eta, values_reduce_rows_mk by lia.
    rewrite values_reduce_cols_mk by lia. apply shape_mk.
Qed.

Lemma reduce_body_inv (n : nat) (s s' : reduce_state) :
  0 < n -> reduce_inv n s -> reduce_body s = Ok s' -> reduce_inv n s'.
Proof.
  intros Hn Hinv E. destruct s as [[m r] c]. destruct Hinv as [Hsq _].
  unfold reduce_body in E.
  pose proof (square_reduce_any m n Hsq) as Hsq'.
  set (new_matrix := reduce_cols (reduce_rows m)) in *.
  destruct (scratch_matrix new_matrix) as [r' c'] eqn:Es.
  destruct (scratch_matrix_cover new_matrix n r' c' Hn Hsq' Es) as (Hr & Hc & _).
  destruct (is_optimal_assignment r' c') as [[|]|] eqn:Eo; [| |discriminate].
  - inversion E; subst s'; clear E. split; [assumption|].
    intros _. exists m. auto.
  - rewrite (shift_zeros_cells new_matrix r' c' n Hn Hsq' Hr Hc) in E.
    inversion E; subst s'; clear E. split; [apply shape_mk|].
    intros Habs. congruence.
Qed.

Lemma reduce_loop_inv (n fuel : nat) (s s' : reduce_state) :
  0 < n -> reduce_inv n s -> reduce_loop fuel s = Some (Ok s') ->
  reduce_inv n s'
  /\ is_optimal_assignment (V := V) (snd (fst s')) (snd s') = Ok true.
Proof.
  intros Hn. revert s. induction fuel as [|fuel IH]; intros s Hinv E;
    rewrite reduce_loop_unfold in E; destruct s as [[m r] c];
    rewrite reduce_condition_masks in E;
    destruct (is_optimal_assignment r c) as [[|]|] eqn:Eo;
    cbn [negb] in E; try discriminate.
  - inversion E; subst s'. auto.
  - inversion E; subst s'. auto.
  - destruct (reduce_body (m, r, c)) as [s1|] eqn:Eb; [|discriminate].
    apply (IH s1); [|assumption].
    now apply (reduce_body_inv n (m, r, c) s1).
Qed.

(** What the loop returns on a square matrix with a row, when the masks it
    starts from fail the test: a matrix both reducers produced, with the
    cover [scratch_matrix] builds on it, that passes the test. *)
Lemma reduce_matrix_returns (fuel n : nat) (t t' : Tensor V) :
  0 < n -> square (values t) n ->
  is_optimal_assignment (V := V) (tf_zeros_bool n 1) (tf_zeros_bool 1 n)
  = Ok false ->
  reduce_matrix fuel t = Some (Ok t') ->
  square (values t') n
  /\ exists m0 rows_mask cols_mask,
       square (values m0) n
       /\ t' = reduce_cols (reduce_rows m0)
       /\ scratch_matrix t' = (rows_mask, cols_mask)
       /\ is_optimal_assignment (V := V) rows_mask cols_mask = Ok true.
Proof.
  intros Hn Hsq Hinit0 E. unfold reduce_matrix in E.
  destruct (reduce_loop fuel (reduce_init t)) as [[[[m r] c]|]|] eqn:El;
    try discriminate.
  inversion E; subst m; clear E.
  assert (Hinit : reduce_inv n (reduce_init t)).
  { unfold reduce_init, reduce_inv. split; [assumption|].
    rewrite (shape_ncols (values t) n n Hsq Hn).
    destruct Hsq as [Hl _]. rewrite Hl, Hinit0. discriminate. }
  destruct (reduce_loop_inv n fuel _ _ Hn Hinit El) as [[Hsq' Hgood] Hopt].
  cbn [fst snd] in Hopt. destruct (Hgood Hopt) as (m0 & Hsq0 & Et & Es).
  split; [assumption|]. now exists m0, r, c.
Qed.

End Loop.

Lemma is_optimal_assignment_init_half (n : nat) :
  0 < n ->
  is_optimal_assignment (V := half) (tf_zeros_bool n 1) (tf_zeros_bool 1 n)
  = Ok false.
Proof.
  intros Hn. unfold is_optimal_assignment.
  rewrite length_zeros_rows, ncols_zeros_cols, Nat.eqb_refl.
  rewrite !reduce_sum_cast_bool_half by (rewrite count_marked_zeros; lia).
  rewrite !count_marked_zeros. f_equal.
  cbn [f_add f_eqb of_Z half_scalar].
  change (half_add (HFin (Z.of_nat 0 * 2 ^ 24)) (HFin (Z.of_nat 0 * 2 ^ 24)))
    with (HFin 0).
  destruct (round16_pos (Z.of_nat n * 2 ^ 48)) as [->|(k & -> & Hk)].
  - change (2 ^ 24)%Z with 16777216%Z. change (2 ^ 48)%Z with 281474976710656%Z.
    lia.
  - reflexivity.
  - cbn [half_eqb]. apply Z.eqb_neq. lia.
Qed.

(** A matrix [reduce_matrix] returns without a NaN is a reduced table. *)
Lemma reduce_matrix_reduced_half (fuel n : nat) (t t' : Tensor half) :
  0 < n -> square (values t) n -> reduce_matrix fuel t = Some (Ok t') ->
  (forall i j, i < n -> j < n -> cell (HFin 0) (values t') i j <> HNaN) ->
  dtype t' = Float16 /\ square (values t') n
  /\ reduced_table n n (cell (HFin 0) (values t'))
  /\ exists rows_mask cols_mask,
       scratch_matrix t' = (rows_mask, cols_mask)
       /\ is_optimal_assignment (V := half) rows_mask cols_mask = Ok true.
Proof.
  intros Hn Hsq E Hno.
  destruct (reduce_matrix_returns fuel n t t' Hn Hsq
              (is_optimal_assignment_init_half n Hn) E)
    as (Hsq' & m0 & r & c & Hsq0 & Et & Es & Hopt).
  split; [now rewrite Et|]. split; [assumption|]. split; [|now exists r, c].
  assert (Ev : values t'
               = mk n n (half_col_reduced n
                           (half_row_reduced n (cell (HFin 0) (values m0)))))
    by (rewrite Et; now apply values_reduce_half_cells).
  apply (reduced_table_ext n n
           (half_col_reduced n (half_row_reduced n (cell (HFin 0) (values m0))))).
  - intros i j Hi Hj. now rewrite Ev, cell_mk.
  - apply reduced_no_nan; [assumption|]. intros i j Hi Hj.
    specialize (Hno i j Hi Hj). now rewrite Ev, cell_mk in Hno.
Qed.

(** C7 as the code has it: a matrix without NaN that [reduce_matrix] returns
    on a square float16 input is a fixpoint of the reduce-and-cover step:
    reducing its rows and then its columns gives the same matrix back, and
    the cover [scratch_matrix] builds on it passes the optimality test
    again. *)
Theorem reduce_matrix_fixpoint (fuel n : nat) (t t' : Tensor half) :
  dtype t = Float16 ->
  square (values t) n -> reduce_matrix fuel t = Some (Ok t') ->
  (forall i j, i < n -> j < n -> cell (HFin 0) (values t') i j <> HNaN) ->
  values (reduce_cols (reduce_rows t')) = values t'
  /\ (0 < n -> reduce_cols (reduce_rows t') = t')
  /\ is_optimal_assignment (V := half)
       (fst (scratch_matrix (reduce_cols (reduce_rows t'))))
       (snd (scratch_matrix (reduce_cols (reduce_rows t')))) = Ok true
  /\ is_optimal_assignment (V := half)
       (fst (scratch_matrix t')) (snd (scratch_matrix t')) = Ok true.
Proof.
  intros _ Hsq E Hno. destruct n as [|n'].
  - destruct t as [d m]. cbn [values] in Hsq. apply shape_zero_nil in Hsq.
    subst m. destruct fuel; cbv in E; inversion E; subst t'.
    all: repeat split; try reflexivity; intros; lia.
  - assert (Hn : 0 < S n') by lia.
    destruct (reduce_matrix_reduced_half fuel (S n') t t' Hn Hsq E Hno)
      as (Hd & Hsq' & Hred & r & c & Es & Hopt).
    assert (Efix : reduce_cols (reduce_rows t') = t')
      by now apply (reduce_reduce_fix_half t' (S n')).
    rewrite Efix, Es. cbn [fst snd]. auto.
Qed.

(** C7 does not hold as stated: on [overflowing], a matrix of finite
    float16 values, the first pass overflows, column 0 becomes NaN (inf less
    inf), the cover of the other zeros has four lines, which [scratch_matrix]
    builds again on the returned matrix, and [reduce_matrix] returns.  The
    returned matrix is not what reducing it again gives: a NaN cell is equal
    to nothing, be it itself. *)
Lemma reduce_matrix_returns_nan :
  let returned :=
    mkTensor Float16
      [[HNaN; HFin 0; HFin 0; HFin 0];
       [HNaN; HFin 0; HFin HALF_MAX; HFin HALF_MAX];
       [HNaN; HFin HALF_MAX; HFin 0; HFin HALF_MAX];
       [HNaN; HFin HALF_MAX; HFin HALF_MAX; HFin 0]] in
  square (values (t16 overflowing)) 4
  /\ forallb (forallb is_finite) (values (t16 overflowing)) = true
  /\ reduce_matrix 1 (t16 overflowing) = Some (Ok returned)
  /\ scratch_matrix returned
     = ([[true]; [false]; [false]; [false]], [[false; true; true; true]])
  /\ cell (HFin 0) (values (reduce_cols (reduce_rows returned))) 0 0 = HNaN
  /\ half_eqb (cell (HFin 0) (values (reduce_cols (reduce_rows returned))) 0 0)
       (cell (HFin 0) (values returned) 0 0) = false.
Proof.
  split; [split; [reflexivity | repeat constructor]|].
  repeat split; vm_compute; reflexivity.
Qed.

Lemma reduce_matrix_fixpoint_witness :
  let final := t16 [[10; 10; 0]; [0; 0; 15]; [0; 0; 0]]%Z in
  (dtype (t16 sample) = Float16 /\ square (values (t16 sample)) 3
   /\ reduce_matrix 2 (t16 sample) = Some (Ok final))
  /\ values (reduce_cols (reduce_rows final)) = values final.
Proof.
  intros final.
  assert (Hsq : square (values (t16 sample)) 3)
    by (split; [reflexivity | repeat constructor]).
  assert (E : reduce_matrix 2 (t16 sample) = Some (Ok final)) by reflexivity.
  split; [auto|].
  apply (reduce_matrix_fixpoint 2 3 (t16 sample) final eq_refl Hsq E).
  intros i j Hi Hj.
  destruct i as [|[|[|i]]]; destruct j as [|[|[|j]]]; try (exfalso; lia);
    vm_compute; discriminate.
Defined.

(** ** Beyond the claims: the reducers on rectangular float16 matrices *)

(** X1: on a float16 matrix of finite values with [r] rows and [c] columns,
    square or not, [reduce_rows] keeps the shape and takes off every row, in
    float16, its least entry: no entry of the result is below zero (an
    entry is +inf where the difference overflows), every row holds a zero,
    and reducing the rows once more changes nothing. *)
Theorem reduce_rows_rectangular (t : Tensor half) (r c : nat) :
  dtype t = Float16 ->
  0 < r -> 0 < c -> shape (values t) r c ->
  (forall i j, i < r -> j < c ->
     is_finite (cell (HFin 0) (values t) i j) = true) ->
  let R := values (reduce_rows t) in
  shape R r c
  /\ (forall i j, i < r -> j < c ->
        cell (HFin 0) R i j
        = half_sub (cell (HFin 0) (values t) i j) (least (nth i (values t) [])))
  /\ (forall i j, i < r -> j < c -> half_nonneg (cell (HFin 0) R i j))
  /\ (forall i, i < r -> exists j, j < c /\ cell (HFin 0) R i j = HFin 0)
  /\ reduce_rows (reduce_rows t) = reduce_rows t.
Proof.
  intros _ Hr Hc Hs Hfin R. unfold R.
  rewrite (values_reduce_rows_half_cells t r c Hr Hc Hs).
  set (g := cell (HFin 0) (values t)).
  destruct (rows_forward r c g Hc) as [Hpos Hrow].
  { intros i Hi. apply (line_min_finite_of_finite c (g i) Hc).
    intros k Hk. now apply Hfin. }
  split; [apply shape_mk|]. split; [|split; [|split]].
  - intros i j Hi Hj. rewrite cell_mk by assumption. unfold half_row_reduced.
    f_equal. rewrite reduce_min_list_half. f_equal. unfold g, cell. symmetry.
    rewrite (tabulate_nth (nth i (values t) []) (HFin 0)) at 1.
    now rewrite (shape_nth (values t) r c i Hs Hi).
  - intros i j Hi Hj. rewrite cell_mk by assumption. now apply Hpos.
  - intros i Hi. destruct (Hrow i Hi) as (j & Hj & E).
    exists j. split; [assumption|]. now rewrite cell_mk.
  - rewrite (reduce_rows_eta (reduce_rows t)), (reduce_rows_eta t).
    f_equal. rewrite (values_reduce_rows_half_cells t r c Hr Hc Hs). fold g.
    rewrite values_reduce_rows_half by assumption.
    apply mk_ext. intros i j Hi Hj.
    apply (line_fix c (half_row_reduced c g i) Hc j); auto.
Qed.

Lemma reduce_rows_rectangular_witness :
  let t := t16 [[4; 2; 7]; [5; 9; 6]]%Z in
  (dtype t = Float16 /\ 0 < 2 /\ 0 < 3 /\ shape (values t) 2 3)
  /\ reduce_rows t = t16 [[2; 0; 5]; [0; 4; 1]]%Z
  /\ reduce_rows (reduce_rows t) = reduce_rows t.
Proof.
  intros t.
  assert (Hs : shape (values t) 2 3) by (split; [reflexivity | repeat constructor]).
  split; [split; [reflexivity | split; [lia | split; [lia | exact Hs]]]|].
  split; [reflexivity|].
  apply (reduce_rows_rectangular t 2 3 eq_refl (Nat.lt_0_succ 1)
           (Nat.lt_0_succ 2) Hs).
  intros i j Hi Hj.
  destruct i as [|[|i]]; destruct j as [|[|[|j]]]; try (exfalso; lia);
    vm_compute; reflexivity.
Defined.

(** X2: on a float16 matrix of finite values with [r] rows and [c] columns,
    square or not, [reduce_cols] keeps the shape and takes off every column,
    in float16, its least entry: no entry of the result is below zero,
    every column holds a zero, and reducing the columns once more changes
    nothing. *)
Theorem reduce_cols_rectangular (t : Tensor half) (r c : nat) :
  dtype t = Float16 ->
  0 < r -> 0 < c -> shape (values t) r c ->
  (forall i j, i < r -> j < c ->
     is_finite (cell (HFin 0) (values t) i j) = true) ->
  let R := values (reduce_cols t) in
  shape R r c
  /\ (forall i j, i < r -> j < c ->
        cell (HFin 0) R i j
        = half_sub (cell (HFin 0) (values t) i j)
            (least (column (HFin 0) j (values t))))
  /\ (forall i j, i < r -> j < c -> half_nonneg (cell (HFin 0) R i j))
  /\ (forall j, j < c -> exists i, i < r /\ cell (HFin 0) R i j = HFin 0)
  /\ reduce_cols (reduce_cols t) = reduce_cols t.
Proof.
  intros _ Hr Hc Hs Hfin R. unfold R.
  rewrite (values_reduce_cols_half_cells t r c Hr Hc Hs).
  set (g := cell (HFin 0) (values t)).
  assert (Hline : forall j, j < c ->
            (forall k, k < r -> half_nonneg (half_col_reduced r g k j)
                                /\ is_float16 (half_col_reduced r g k j))
            /\ exists k, k < r /\ half_col_reduced r g k j = HFin 0).
  { intros j Hj.
    destruct (line_min_finite_of_finite r (fun i => g i j) Hr) as (rho & E).
    - intros k Hk. now apply Hfin.
    - exact (line_reduce r (fun i => g i j) Hr rho E). }
  split; [apply shape_mk|]. split; [|split; [|split]].
  - intros i j Hi Hj. rewrite cell_mk by assumption. unfold half_col_reduced.
    f_equal. rewrite reduce_min_list_half. f_equal. unfold column. symmetry.
    rewrite (tabulate_nth (values t) []) at 1. destruct Hs as [Hl _].
    rewrite Hl, map_tabulate. reflexivity.
  - intros i j Hi Hj. rewrite cell_mk by assumption.
    now apply (proj1 (Hline j Hj)).
  - intros j Hj. destruct (proj2 (Hline j Hj)) as (i & Hi & E).
    exists i. split; [assumption|]. now rewrite cell_mk.
  - rewrite (reduce_cols_eta (reduce_cols t)), (reduce_cols_eta t).
    f_equal. rewrite (values_reduce_cols_half_cells t r c Hr Hc Hs). fold g.
    rewrite values_reduce_cols_half by assumption.
    apply mk_ext. intros i j Hi Hj.
    apply (line_fix r (fun i' => half_col_reduced r g i' j) Hr i); auto.
    + intros k Hk. now apply (proj1 (Hline j Hj)).
    + exact (proj2 (Hline j Hj)).
Qed.

Lemma reduce_cols_rectangular_witness :
  let t := t16 [[4; 2; 7]; [5; 9; 6]]%Z in
  (dtype t = Float16 /\ 0 < 2 /\ 0 < 3 /\ shape (values t) 2 3)
  /\ reduce_cols t = t16 [[0; 0; 1]; [1; 7; 0]]%Z
  /\ reduce_cols (reduce_cols t) = reduce_cols t.
Proof.
  intros t.
  assert (Hs : shape (values t) 2 3) by (split; [reflexivity | repeat constructor]).
  split; [split; [reflexivity | split; [lia | split; [lia | exact Hs]]]|].
  split; [reflexivity|].
  apply (reduce_cols_rectangular t 2 3 eq_refl (Nat.lt_0_succ 1)
           (Nat.lt_0_succ 2) Hs).
  intros i j Hi Hj.
  destruct i as [|[|i]]; destruct j as [|[|[|j]]]; try (exfalso; lia);
    vm_compute; reflexivity.
Defined.

(** ** Beyond the claims: matrices the reducers do not overflow on *)

Lemma half_sub_bounded (a b : Z) :
  (0 <= b <= a)%Z -> (a <= HALF_MAX)%Z ->
  exists k, half_sub (HFin a) (HFin b) = HFin k /\ (0 <= k <= HALF_MAX)%Z.
Proof.
  intros Hb Ha. rewrite half_sub_fin. apply round16_bounded.
  change (2 ^ 24)%Z with 16777216%Z. lia.
Qed.

(** Taking its minimum off a line of finite float16 values that are not
    negative leaves finite values that are not negative. *)
Lemma line_reduce_bounded (n : nat) (f : nat -> half) (k : nat) :
  0 < n ->
  (forall k, k < n -> exists a, f k = HFin a /\ (0 <= a <= HALF_MAX)%Z) ->
  k < n ->
  exists a, half_sub (f k) (reduce_min_list (tabulate n f)) = HFin a
            /\ (0 <= a <= HALF_MAX)%Z.
Proof.
  intros Hn Hf Hk.
  destruct (line_min_in n f Hn) as (k0 & Hk0 & E0).
  destruct (Hf k0 Hk0) as (b & Eb & Hb). destruct (Hf k Hk) as (a & Ea & Ha).
  pose proof (line_min_le n f Hn k Hk) as Hle.
  rewrite E0, Eb in *. rewrite Ea in *. apply min_le_fin in Hle.
  apply half_sub_bounded; lia.
Qed.

(** X11: no overflow on a matrix without negative entry.  On a float16
    matrix of finite values that are not negative, square or not, the row
    reduction and the column reduction that follows it only produce finite
    values that are not negative: the result of [reduce_rows] and the result
    of [reduce_cols] after it hold no infinity and no NaN, and the latter
    has a zero in every row and in every column. *)
Theorem reduce_nonneg_finite (t : Tensor half) (r c : nat) :
  dtype t = Float16 ->
  0 < r -> 0 < c -> shape (values t) r c ->
  (forall i j, i < r -> j < c ->
     is_float16 (cell (HFin 0) (values t) i j)
     /\ is_finite (cell (HFin 0) (values t) i j) = true
     /\ half_nonneg (cell (HFin 0) (values t) i j)) ->
  let N := values (reduce_rows t) in
  let R := values (reduce_cols (reduce_rows t)) in
  (forall i j, i < r -> j < c ->
     exists a, cell (HFin 0) N i j = HFin a /\ (0 <= a)%Z)
  /\ shape R r c
  /\ (forall i j, i < r -> j < c ->
        exists a, cell (HFin 0) R i j = HFin a /\ (0 <= a)%Z)
  /\ (forall i, i < r -> exists j, j < c /\ cell (HFin 0) R i j = HFin 0)
  /\ (forall j, j < c -> exists i, i < r /\ cell (HFin 0) R i j = HFin 0).
Proof.
  intros _ Hr Hc Hs Hval N R. unfold N, R.
  rewrite (values_reduce_half_cells t r c Hr Hc Hs).
  rewrite (values_reduce_rows_half_cells t r c Hr Hc Hs).
  set (g := cell (HFin 0) (values t)) in *.
  assert (Hg : forall i j, i < r -> j < c ->
            exists a, g i j = HFin a /\ (0 <= a <= HALF_MAX)%Z).
  { intros i j Hi Hj. destruct (Hval i j Hi Hj) as (Hf & Hfin & Hpos).
    destruct (g i j) as [a| | |]; try discriminate. exists a.
    split; [reflexivity|]. cbn in Hpos. split; [assumption|].
    now apply is_float16_bound. }
  assert (HN : forall i j, i < r -> j < c ->
            exists a, half_row_reduced c g i j = HFin a
                      /\ (0 <= a <= HALF_MAX)%Z).
  { intros i j Hi Hj. apply (line_reduce_bounded c (g i) j Hc); auto. }
  assert (HR : forall i j, i < r -> j < c ->
            exists a, half_col_reduced r (half_row_reduced c g) i j = HFin a
                      /\ (0 <= a <= HALF_MAX)%Z).
  { intros i j Hi Hj.
    apply (line_reduce_bounded r (fun i' => half_row_reduced c g i' j) i Hr);
      auto. }
  assert (Hred : reduced_table r c (half_col_reduced r (half_row_reduced c g))).
  { destruct (rows_forward r c g Hc) as [Hpos Hrow].
    { intros i Hi. apply (line_min_finite_of_finite c (g i) Hc).
      intros k Hk. destruct (Hg i k Hi Hk) as (a & -> & _). reflexivity. }
    apply cols_forward; auto.
    - intros i j Hi Hj. now apply Hpos.
    - intros j Hj.
      apply (line_min_finite_of_finite r (fun i => half_row_reduced c g i j) Hr).
      intros k Hk. destruct (HN k j Hk Hj) as (a & -> & _). reflexivity. }
  destruct Hred as (_ & Hrow' & Hcol').
  split; [|split; [apply shape_mk|split; [|split]]].
  - intros i j Hi Hj. rewrite cell_mk by assumption.
    destruct (HN i j Hi Hj) as (a & E & Ha). exists a. split; [assumption | lia].
  - intros i j Hi Hj. rewrite cell_mk by assumption.
    destruct (HR i j Hi Hj) as (a & E & Ha). exists a. split; [assumption | lia].
  - intros i Hi. destruct (Hrow' i Hi) as (j & Hj & Ez). exists j.
    split; [assumption|]. now rewrite cell_mk.
  - intros j Hj. destruct (Hcol' j Hj) as (i & Hi & Ez). exists i.
    split; [assumption|]. now rewrite cell_mk.
Qed.

Lemma reduce_nonneg_finite_witness :
  let t := t16 [[65504; 0; 7]; [5; 65504; 6]]%Z in
  (dtype t = Float16 /\ 0 < 2 /\ 0 < 3 /\ shape (values t) 2 3)
  /\ reduce_cols (reduce_rows t) = t16 [[65504; 0; 6]; [0; 65504; 0]]%Z
  /\ forall i j, i < 2 -> j < 3 ->
       exists a, cell (HFin 0) (values (reduce_cols (reduce_rows t))) i j = HFin a
                 /\ (0 <= a)%Z.
Proof.
  intros t.
  assert (Hs : shape (values t) 2 3) by (split; [reflexivity | repeat constructor]).
  split; [split; [reflexivity | split; [lia | split; [lia | exact Hs]]]|].
  split; [vm_compute; reflexivity|].
  apply (reduce_nonneg_finite t 2 3 eq_refl (Nat.lt_0_succ 1)
           (Nat.lt_0_succ 2) Hs).
  intros i j Hi Hj.
  destruct i as [|[|i]]; destruct j as [|[|[|j]]]; try (exfalso; lia);
    vm_compute; (split; [reflexivity | split; [reflexivity | discriminate]]).
Defined.

(** ** Beyond the claims: what the loop hands back *)

(** X10: what [reduce_matrix] returns on a square float16 matrix of [n]
    rows, [n] from 1 to 2047, when it holds no NaN.  The loop has made at
    least one pass, so the matrix returned is a float16 matrix of the same
    size without an entry below zero, with a zero in every row and in every
    column, and the cover [scratch_matrix] builds on it covers all its zeros
    with exactly [n] lines. *)
Theorem reduce_matrix_postcondition (fuel n : nat) (t t' : Tensor half) :
  dtype t = Float16 ->
  0 < n -> n < 2048 -> square (values t) n ->
  reduce_matrix fuel t = Some (Ok t') ->
  (forall i j, i < n -> j < n -> cell (HFin 0) (values t') i j <> HNaN) ->
  dtype t' = Float16
  /\ square (values t') n
  /\ (forall i j, i < n -> j < n -> half_nonneg (cell (HFin 0) (values t') i j))
  /\ (forall i, i < n -> exists j, j < n /\ cell (HFin 0) (values t') i j = HFin 0)
  /\ (forall j, j < n -> exists i, i < n /\ cell (HFin 0) (values t') i j = HFin 0)
  /\ exists rows_mask cols_mask,
       scratch_matrix t' = (rows_mask, cols_mask)
       /\ count_marked rows_mask + count_marked cols_mask = n
       /\ forall i j, i < n -> j < n ->
            cell (HFin 0) (values t') i j = HFin 0 ->
            row_marked rows_mask i = true \/ col_marked cols_mask j = true.
Proof.
  intros _ Hn Hlt Hsq E Hno.
  destruct (reduce_matrix_reduced_half fuel n t t' Hn Hsq E Hno)
    as (Hd & Hsq' & (Hpos & Hrow & Hcol) & r & c & Es & Hopt).
  split; [assumption|]. split; [assumption|].
  split; [intros i j Hi Hj; now apply Hpos|].
  split; [assumption|]. split; [assumption|].
  exists r, c. split; [assumption|].
  destruct (scratch_matrix_cover t' n r c Hn Hsq' Es) as (Hr & Hc & Hcov).
  split.
  - rewrite (is_optimal_assignment_half r c n Hlt Hr Hc) in Hopt.
    inversion Hopt as [Hb]. now apply Nat.eqb_eq.
  - intros i j Hi Hj Hz. apply Hcov; auto.
    change (@ZERO half half_scalar) with (HFin 0). rewrite Hz. reflexivity.
Qed.

Lemma reduce_matrix_postcondition_witness :
  let final := t16 [[10; 10; 0]; [0; 0; 15]; [0; 0; 0]]%Z in
  (dtype (t16 sample) = Float16 /\ 0 < 3 /\ 3 < 2048
   /\ square (values (t16 sample)) 3
   /\ reduce_matrix 2 (t16 sample) = Some (Ok final))
  /\ dtype final = Float16
  /\ square (values final) 3.
Proof.
  intros final.
  assert (Hsq : square (values (t16 sample)) 3)
    by (split; [reflexivity | repeat constructor]).
  assert (E : reduce_matrix 2 (t16 sample) = Some (Ok final)) by reflexivity.
  assert (H3 : 3 < 2048) by lia.
  split; [split; [reflexivity | split; [lia | split; [exact H3 | split; [exact Hsq | exact E]]]]|].
  destruct (reduce_matrix_postcondition 2 3 (t16 sample) final eq_refl
              (Nat.lt_0_succ 2) H3 Hsq E) as (Hd & Hs & _).
  - intros i j Hi Hj.
    destruct i as [|[|[|i]]]; destruct j as [|[|[|j]]]; try (exfalso; lia);
      vm_compute; discriminate.
  - split; assumption.
Defined.
